(** * tcp-port-used: port probes and polling sessions

    A shallow embedding of the three generations of the module found in
    the repository:

    - [HostAware]  the current module (connect-based [check] with a host
                   argument, [waitUntilFreeOnHost], [waitUntilUsedOnHost]
                   and the two no-host wrappers);
    - [Interval]   its predecessor (bind-based [check], [waitUntilFree]
                   and [waitUntilUsed] driven by [setInterval]);
    - [Original]   the first release (bind-based [check] only).

    JavaScript values, the pieces of Node (event emitters, sockets,
    servers, timers) and of the q promise library that the code calls
    are modelled first; each source function is then transcribed as a
    function on an explicit state, and the runtime is a step function
    that delivers one event (a timer firing, a socket event, a promise
    callback) at a time. *)

From Stdlib Require Import ZArith Lia.
From stdpp Require Import base option list gmap strings pretty.

Set Default Proof Using "Type".

(** ** JavaScript values *)

(** The values a caller can pass.  A number is either an integer or a
    number that is not one (3.5, NaN, Infinity), kept by its printed
    form. *)
Inductive val : Type :=
  | VUndefined
  | VNull
  | VBool (b : bool)
  | VInt (z : Z)
  | VNonInt (shown : string)
  | VStr (s : string).

(** [util.inspect] on the values above: strings are quoted. *)
Definition inspect (v : val) : string :=
  match v with
  | VUndefined => "undefined"
  | VNull => "null"
  | VBool true => "true"
  | VBool false => "false"
  | VInt z => pretty z
  | VNonInt s => s
  | VStr s => "'" +:+ s +:+ "'"
  end.

(** String concatenation ['...' + v]: strings are not quoted. *)
Definition to_string (v : val) : string :=
  match v with
  | VStr s => s
  | _ => inspect v
  end.

(** [Error] objects: a message and, for system errors, a [code]. *)
Record js_error : Type := mk_error { message : string; code : option string }.

Definition new_Error (msg : string) : js_error :=
  {| message := msg; code := None |}.

(** The errors Node reports for a failed system call: [code] is the
    name of the errno. *)
Definition system_error (errno msg : string) : js_error :=
  {| message := msg; code := Some errno |}.

(** A function call either returns or throws synchronously. *)
Inductive completion (A : Type) : Type :=
  | Normal (a : A)
  | Throw (e : js_error).
Arguments Normal {A} a.
Arguments Throw {A} e.

Definition cbind {A B} (c : completion A) (k : A → completion B) : completion B :=
  match c with
  | Normal a => k a
  | Throw e => Throw e
  end.

Notation "x ⇐ c ; k" := (cbind c (λ x, k))
  (at level 20, c at level 100, k at level 200, right associativity,
   only parsing).

(** ** The is2 predicates *)

Module Is2.

(** Modelled from the spec: is2's [is.port] is not part of the
    repository; the spec gives it as "must be an integer,
    0 <= port <= 65535". *)
Definition port (v : val) : bool :=
  match v with
  | VInt z => bool_decide (0 ≤ z ≤ 65535)%Z
  | _ => false
  end.

(** Modelled from the spec: is2's [is.positiveInt] is not part of the
    repository; the spec gives it as "a positive integer". *)
Definition positiveInt (v : val) : bool :=
  match v with
  | VInt z => bool_decide (0 < z)%Z
  | _ => false
  end.

(** Modelled from the spec: is2's [is.hostAddress] is not part of the
    repository.  The spec only says that a host is a string and that
    an absent or malformed one is replaced; which strings are well
    formed is the parameter [syntax]. *)
Definition hostAddress (syntax : string → bool) (v : val) : bool :=
  match v with
  | VStr s => syntax s
  | _ => false
  end.

End Is2.

(** ** q deferreds *)

Module Promise.

Inductive settle (A : Type) : Type :=
  | Resolve (a : A)
  | Reject (e : js_error).
Arguments Resolve {A} a.
Arguments Reject {A} e.

(** A deferred is the log of the [resolve] and [reject] calls made on
    it, oldest first. *)
Definition deferred (A : Type) : Type := list (settle A).

Definition defer {A} : deferred A := [].
Definition resolve {A} (a : A) (d : deferred A) : deferred A := d ++ [Resolve a].
Definition reject {A} (e : js_error) (d : deferred A) : deferred A := d ++ [Reject e].

Inductive state (A : Type) : Type :=
  | Pending
  | Fulfilled (a : A)
  | Rejected (e : js_error).
Arguments Pending {A}.
Arguments Fulfilled {A} a.
Arguments Rejected {A} e.

(** The promise a caller observes: q keeps the first call and ignores
    the later ones. *)
Definition promise {A} (d : deferred A) : state A :=
  match d with
  | [] => Pending
  | Resolve a :: _ => Fulfilled a
  | Reject e :: _ => Rejected e
  end.

End Promise.

(** ** Node: event emitters *)

Module EventEmitter.

Inductive mode : Type := On | Once.

(** Event name to the listeners subscribed to it, in order. *)
Abbreviation t C := (gmap string (list (mode * C))).

Definition subscribed {C} (ev : string) (e : t C) : list (mode * C) :=
  default [] (e !! ev).

Definition on {C} (ev : string) (cb : C) (e : t C) : t C :=
  <[ev := subscribed ev e ++ [(On, cb)]]> e.

Definition once {C} (ev : string) (cb : C) (e : t C) : t C :=
  <[ev := subscribed ev e ++ [(Once, cb)]]> e.

Definition removeAllListeners {C} (ev : string) (e : t C) : t C :=
  delete ev e.

Definition is_on {C} (l : mode * C) : bool :=
  match l.1 with On => true | Once => false end.

(** [emit ev]: the listeners to call, and the table once the [Once]
    ones have been taken out (they are removed before they run). *)
Definition emit {C} (ev : string) (e : t C) : list C * t C :=
  let ls := subscribed ev e in
  let kept := List.filter is_on ls in
  (ls.*2, match kept with [] => delete ev e | _ => <[ev := kept]> e end).

End EventEmitter.

(** ** Node: sockets and servers *)

Module Net.

Inductive conn : Type :=
  | Idle
  | Connecting (port host : val)
  | Open
  | Closed.

Record Socket (C : Type) : Type := mk_socket {
  conn_state : conn;
  listeners : EventEmitter.t C
}.
Arguments mk_socket {C}.
Arguments conn_state {C}.
Arguments listeners {C}.

Definition new_Socket {C} : Socket C :=
  {| conn_state := Idle; listeners := ∅ |}.

Definition once {C} (ev : string) (cb : C) (s : Socket C) : Socket C :=
  {| conn_state := conn_state s; listeners := EventEmitter.once ev cb (listeners s) |}.

Definition removeAllListeners {C} (ev : string) (s : Socket C) : Socket C :=
  {| conn_state := conn_state s;
     listeners := EventEmitter.removeAllListeners ev (listeners s) |}.

(** What [connect] accepts without throwing: an integer port in range
    and a host that is a string or left out. *)
Definition legal_target (port host : val) : bool :=
  Is2.port port &&
  match host with VStr _ | VUndefined => true | _ => false end.

Definition connect {C} (port host : val) (s : Socket C) : completion (Socket C) :=
  if legal_target port host
  then Normal {| conn_state := Connecting port host; listeners := listeners s |}
  else Throw {| message := "connect: bad argument"; code := Some "ERR_INVALID_ARG" |}.

(** What the network does to a connecting socket. *)
Inductive socket_event : Type :=
  | connect_ev
  | error_ev (errno msg : string).

Definition event_name (ev : socket_event) : string :=
  match ev with connect_ev => "connect" | error_ev _ _ => "error" end.

(** Only a connecting socket receives ['connect'] or ['error'].  A
    connected socket stays open until someone ends it; a failed one is
    destroyed by Node before ['error'] is emitted. *)
Definition deliver {C} (ev : socket_event) (s : Socket C) : option (list C * Socket C) :=
  match conn_state s with
  | Connecting _ _ =>
      let '(ls, e) := EventEmitter.emit (event_name ev) (listeners s) in
      Some (ls, {| conn_state := match ev with connect_ev => Open | error_ev _ _ => Closed end;
                   listeners := e |})
  | _ => None
  end.

Inductive bind : Type :=
  | Unbound
  | Binding (port : val)
  | Listening
  | Closing
  | Released.

Record Server (C : Type) : Type := mk_server {
  bind_state : bind;
  handlers : EventEmitter.t C
}.
Arguments mk_server {C}.
Arguments bind_state {C}.
Arguments handlers {C}.

Definition createServer {C} : Server C :=
  {| bind_state := Unbound; handlers := ∅ |}.

Definition server_on {C} (ev : string) (cb : C) (s : Server C) : Server C :=
  {| bind_state := bind_state s; handlers := EventEmitter.on ev cb (handlers s) |}.

Definition server_once {C} (ev : string) (cb : C) (s : Server C) : Server C :=
  {| bind_state := bind_state s; handlers := EventEmitter.once ev cb (handlers s) |}.

Definition server_removeAllListeners {C} (ev : string) (s : Server C) : Server C :=
  {| bind_state := bind_state s;
     handlers := EventEmitter.removeAllListeners ev (handlers s) |}.

(** [listen] takes whatever it is given; what Node makes of a port it
    cannot bind shows, if at all, as a later ['error'] event. *)
Definition listen {C} (port : val) (s : Server C) : Server C :=
  {| bind_state := Binding port; handlers := handlers s |}.

Definition close {C} (s : Server C) : Server C :=
  {| bind_state := Closing; handlers := handlers s |}.

Inductive server_event : Type :=
  | srv_error (errno msg : string)
  | srv_listening
  | srv_close.

Definition server_event_name (ev : server_event) : string :=
  match ev with
  | srv_error _ _ => "error"
  | srv_listening => "listening"
  | srv_close => "close"
  end.

(** A server that was told to listen either fails (['error'], and it
    is unbound again) or starts listening; one that was told to close
    emits ['close'] when the port is released. *)
Definition server_deliver {C} (ev : server_event) (s : Server C)
  : option (list C * Server C) :=
  let '(ls, e) := EventEmitter.emit (server_event_name ev) (handlers s) in
  match bind_state s, ev with
  | Binding _, srv_error _ _ => Some (ls, {| bind_state := Unbound; handlers := e |})
  | Binding _, srv_listening => Some (ls, {| bind_state := Listening; handlers := e |})
  | Closing, srv_close => Some (ls, {| bind_state := Released; handlers := e |})
  | _, _ => None
  end.

(** The subscriptions of a server a probe has told to listen: one
    [once] handler for ['error'] and one for ['listening']. *)
Definition listening_server {C} (on_error on_listening : C) : EventEmitter.t C :=
  EventEmitter.once "listening" on_listening (EventEmitter.once "error" on_error ∅).

End Net.

(** ** Node: timers *)

Module Timers.

Record timer (C : Type) : Type := mk_timer {
  repeat : bool;
  callback : C;
  delay : val
}.
Arguments mk_timer {C}.
Arguments repeat {C}.
Arguments callback {C}.
Arguments delay {C}.

(** The armed timers by handle, and the next fresh handle. *)
Record t (C : Type) : Type := mk {
  armed : gmap nat (timer C);
  fresh : nat
}.
Arguments mk {C}.
Arguments armed {C}.
Arguments fresh {C}.

Definition none {C} : t C := {| armed := ∅; fresh := 0 |}.

Definition arm {C} (tm : timer C) (ts : t C) : nat * t C :=
  (fresh ts, {| armed := <[fresh ts := tm]> (armed ts); fresh := S (fresh ts) |}).

Definition setTimeout {C} (cb : C) (ms : val) (ts : t C) : nat * t C :=
  arm {| repeat := false; callback := cb; delay := ms |} ts.

Definition setInterval {C} (cb : C) (ms : val) (ts : t C) : nat * t C :=
  arm {| repeat := true; callback := cb; delay := ms |} ts.

(** [clearTimeout] and [clearInterval]: a handle that is not armed is
    ignored. *)
Definition clear {C} (h : nat) (ts : t C) : t C :=
  {| armed := delete h (armed ts); fresh := fresh ts |}.

(** The timer [h] fires: a one-shot timer is disarmed before its
    callback runs, an interval stays armed. *)
Definition fire {C} (h : nat) (ts : t C) : option (C * t C) :=
  match armed ts !! h with
  | Some tm => Some (callback tm, if repeat tm then ts else clear h ts)
  | None => None
  end.

End Timers.

(** ** What a probe asks of the network *)

Inductive request : Type :=
  | connect_to (port host : val)
  | bind_to (port : val).

(** ** The current module: connect-based probe, host-aware polling *)

Module HostAware.

(** Global Values *)
Definition TIMEOUT : val := VInt 2000.
Definition RETRYTIME : val := VInt 200.

(** The two closures [check] subscribes to its socket. *)
Inductive listener : Type := onConnectCb | onErrorCb.

(** The variables of one [check] call. *)
Record probe : Type := mk_probe {
  p_deferred : Promise.deferred bool;
  p_inUse : bool;
  p_client : option (Net.Socket listener)
}.

Section WithHostSyntax.

Variable host_syntax : string → bool.

Definition check (port host : val) : completion probe :=
  let deferred := Promise.defer in
  let inUse := true in
  if negb (Is2.port port) then
    Normal {| p_deferred :=
                Promise.reject (new_Error ("invalid port: " +:+ inspect port)) deferred;
              p_inUse := inUse;
              p_client := None |}
  else
    let host := if negb (Is2.hostAddress host_syntax host)
                then VStr "127.0.0.1" else host in
    let client := Net.new_Socket in
    let client := Net.once "connect" onConnectCb client in
    let client := Net.once "error" onErrorCb client in
    client ⇐ Net.connect port host client;
    Normal {| p_deferred := deferred; p_inUse := inUse; p_client := Some client |}.

End WithHostSyntax.

Definition check_cleanUp (p : probe) : probe :=
  match p_client p with
  | Some client =>
      {| p_deferred := p_deferred p;
         p_inUse := p_inUse p;
         p_client := Some (Net.removeAllListeners "error"
                             (Net.removeAllListeners "connect" client)) |}
  | None => p
  end.

Definition run_onConnectCb (p : probe) : probe :=
  check_cleanUp
    {| p_deferred := Promise.resolve (p_inUse p) (p_deferred p);
       p_inUse := p_inUse p;
       p_client := p_client p |}.

Definition run_onErrorCb (err : js_error) (p : probe) : probe :=
  if negb (bool_decide (code err = Some "ECONNREFUSED")) then
    check_cleanUp
      {| p_deferred := Promise.reject err (p_deferred p);
         p_inUse := p_inUse p;
         p_client := p_client p |}
  else
    let inUse := false in
    check_cleanUp
      {| p_deferred := Promise.resolve inUse (p_deferred p);
         p_inUse := inUse;
         p_client := p_client p |}.

(** A listener called for an event.  [onErrorCb] is only ever
    subscribed to ['error'], so it always receives an error. *)
Definition call (ev : Net.socket_event) (l : listener) (p : probe) : probe :=
  match l, ev with
  | onConnectCb, _ => run_onConnectCb p
  | onErrorCb, Net.error_ev errno msg => run_onErrorCb (system_error errno msg) p
  | onErrorCb, Net.connect_ev => p
  end.

(** The network delivers [ev] to the probe's socket; [None] when the
    probe has no socket waiting for one. *)
Definition socket_emits (ev : Net.socket_event) (p : probe) : option probe :=
  client ← p_client p;
  '(ls, client') ← Net.deliver ev client;
  Some (foldl (λ p l, call ev l p)
              {| p_deferred := p_deferred p; p_inUse := p_inUse p;
                 p_client := Some client' |}
              ls).

(** *** Polling sessions *)

(** The functions handed to [setTimeout]: [timeoutFunc] and the
    anonymous [function() { doCheck(); }]. *)
Inductive timer_fn : Type := timeoutFunc | retry_doCheck.

(** Which of the two polling functions a session belongs to. *)
Inductive operation : Type := UntilFree | UntilUsed.

(** The variables of one [waitUntil...OnHost] call, the timers it has
    armed, and the [check] promises whose [then] callbacks have not
    run yet. *)
Record session : Type := mk_session {
  s_op : operation;
  s_port : val;
  s_host : val;
  s_retryTimeMs : val;
  s_timeOutMs : val;
  s_deferred : Promise.deferred unit;
  s_timedout : bool;
  s_retryId : option nat;
  s_timeoutId : option nat;
  s_timers : Timers.t timer_fn;
  s_checks : list probe
}.

Definition with_deferred (d : Promise.deferred unit) (s : session) : session :=
  mk_session (s_op s) (s_port s) (s_host s) (s_retryTimeMs s) (s_timeOutMs s)
             d (s_timedout s) (s_retryId s) (s_timeoutId s) (s_timers s) (s_checks s).

Definition with_timedout (b : bool) (s : session) : session :=
  mk_session (s_op s) (s_port s) (s_host s) (s_retryTimeMs s) (s_timeOutMs s)
             (s_deferred s) b (s_retryId s) (s_timeoutId s) (s_timers s) (s_checks s).

Definition with_retryId (h : option nat) (s : session) : session :=
  mk_session (s_op s) (s_port s) (s_host s) (s_retryTimeMs s) (s_timeOutMs s)
             (s_deferred s) (s_timedout s) h (s_timeoutId s) (s_timers s) (s_checks s).

Definition with_timers (ts : Timers.t timer_fn) (s : session) : session :=
  mk_session (s_op s) (s_port s) (s_host s) (s_retryTimeMs s) (s_timeOutMs s)
             (s_deferred s) (s_timedout s) (s_retryId s) (s_timeoutId s) ts (s_checks s).

Definition with_checks (ps : list probe) (s : session) : session :=
  mk_session (s_op s) (s_port s) (s_host s) (s_retryTimeMs s) (s_timeOutMs s)
             (s_deferred s) (s_timedout s) (s_retryId s) (s_timeoutId s) (s_timers s) ps.

(** [cleanUp], [timeoutFunc] and the rejection callback have the same
    text in [waitUntilFreeOnHost] and [waitUntilUsedOnHost]. *)
Definition cleanUp (s : session) : session :=
  let s := match s_timeoutId s with
           | Some timeoutId => with_timers (Timers.clear timeoutId (s_timers s)) s
           | None => s
           end in
  match s_retryId s with
  | Some retryId => with_timers (Timers.clear retryId (s_timers s)) s
  | None => s
  end.

Definition run_timeoutFunc (s : session) : session :=
  let s := with_timedout true s in
  let s := cleanUp s in
  with_deferred (Promise.reject (new_Error "timeout") (s_deferred s)) s.

Definition schedule_retry (s : session) : session :=
  let '(retryId, timers) :=
    Timers.setTimeout retry_doCheck (s_retryTimeMs s) (s_timers s) in
  with_retryId (Some retryId) (with_timers timers s).

(** [then] callbacks of [waitUntilFreeOnHost]. *)
Definition free_fulfilled (inUse : bool) (s : session) : session :=
  if s_timedout s then s
  else if inUse then schedule_retry s
  else cleanUp (with_deferred (Promise.resolve () (s_deferred s)) s).

(** [then] callbacks of [waitUntilUsedOnHost]. *)
Definition used_fulfilled (inUse : bool) (s : session) : session :=
  if s_timedout s then s
  else if inUse then cleanUp (with_deferred (Promise.resolve () (s_deferred s)) s)
  else schedule_retry s.

Definition then_rejected (err : js_error) (s : session) : session :=
  if s_timedout s then s
  else cleanUp (with_deferred (Promise.reject err (s_deferred s)) s).

Definition then_fulfilled (inUse : bool) (s : session) : session :=
  match s_op s with
  | UntilFree => free_fulfilled inUse s
  | UntilUsed => used_fulfilled inUse s
  end.

Section Polling.

Variable host_syntax : string → bool.

Definition doCheck (s : session) : completion session :=
  p ⇐ check host_syntax (s_port s) (s_host s);
  Normal (with_checks (s_checks s ++ [p]) s).

Definition waitUntilFreeOnHost (port host retryTimeMs timeOutMs : val)
  : completion session :=
  let deferred := Promise.defer in
  let timedout := false in
  if negb (Is2.port port) then
    Normal (mk_session UntilFree port host retryTimeMs timeOutMs
              (Promise.reject (new_Error ("invalid port: " +:+ inspect port)) deferred)
              timedout None None Timers.none [])
  else
    let host := if negb (Is2.hostAddress host_syntax host)
                then VStr "127.0.0.1" else host in
    let timeOutMs := if negb (Is2.positiveInt timeOutMs)
                     then RETRYTIME else timeOutMs in
    let timeOutMs := if negb (Is2.positiveInt timeOutMs)
                     then TIMEOUT else timeOutMs in
    let '(timeoutId, timers) :=
      Timers.setTimeout timeoutFunc timeOutMs Timers.none in
    doCheck (mk_session UntilFree port host retryTimeMs timeOutMs
               deferred timedout None (Some timeoutId) timers []).

Definition waitUntilFree (port retryTimeMs timeOutMs : val) : completion session :=
  waitUntilFreeOnHost port (VStr "127.0.0.1") retryTimeMs timeOutMs.

Definition waitUntilUsedOnHost (port host retryTimeMs timeOutMs : val)
  : completion session :=
  let deferred := Promise.defer in
  let timedout := false in
  if negb (Is2.port port) then
    Normal (mk_session UntilUsed port host retryTimeMs timeOutMs
              (Promise.reject (new_Error ("invalid port: " +:+ inspect port)) deferred)
              timedout None None Timers.none [])
  else
    let host := if negb (Is2.hostAddress host_syntax host)
                then VStr "127.0.0.1" else host in
    let retryTimeMs := if negb (Is2.positiveInt retryTimeMs)
                       then RETRYTIME else retryTimeMs in
    let timeOutMs := if negb (Is2.positiveInt timeOutMs)
                     then TIMEOUT else timeOutMs in
    let '(timeoutId, timers) :=
      Timers.setTimeout timeoutFunc timeOutMs Timers.none in
    doCheck (mk_session UntilUsed port host retryTimeMs timeOutMs
               deferred timedout None (Some timeoutId) timers []).

Definition waitUntilUsed (port retryTimeMs timeOutMs : val) : completion session :=
  waitUntilUsedOnHost port (VStr "127.0.0.1") retryTimeMs timeOutMs.

(** What the runtime can do to a session: fire an armed timer,
    deliver a network event to the socket of an outstanding
    [check], or run the [then] callbacks of an outstanding [check]
    whose promise is settled. *)
Inductive event : Type :=
  | timer_fires (h : nat)
  | network (i : nat) (ev : Net.socket_event)
  | promise_settled (i : nat).

(** One turn of the event loop; [None] when the event cannot occur
    in this state. *)
Definition step (ev : event) (s : session) : option (completion session) :=
  match ev with
  | timer_fires h =>
      '(fn, timers) ← Timers.fire h (s_timers s);
      let s := with_timers timers s in
      Some (match fn with
            | timeoutFunc => Normal (run_timeoutFunc s)
            | retry_doCheck => doCheck s
            end)
  | network i ev =>
      p ← s_checks s !! i;
      p' ← socket_emits ev p;
      Some (Normal (with_checks (<[i := p']> (s_checks s)) s))
  | promise_settled i =>
      p ← s_checks s !! i;
      let s := with_checks (delete i (s_checks s)) s in
      match Promise.promise (p_deferred p) with
      | Promise.Pending => None
      | Promise.Fulfilled inUse => Some (Normal (then_fulfilled inUse s))
      | Promise.Rejected err => Some (Normal (then_rejected err s))
      end
  end.

(** Several events in a row. *)
Fixpoint run (evs : list event) (s : session) : option session :=
  match evs with
  | [] => Some s
  | ev :: evs =>
      match step ev s with
      | Some (Normal s') => run evs s'
      | _ => None
      end
  end.

(** The four polling operations, each with its arguments. *)
Inductive invocation : Type :=
  | call_waitUntilFree (port retryTimeMs timeOutMs : val)
  | call_waitUntilFreeOnHost (port host retryTimeMs timeOutMs : val)
  | call_waitUntilUsed (port retryTimeMs timeOutMs : val)
  | call_waitUntilUsedOnHost (port host retryTimeMs timeOutMs : val).

Definition invoke (c : invocation) : completion session :=
  match c with
  | call_waitUntilFree p r t => waitUntilFree p r t
  | call_waitUntilFreeOnHost p h r t => waitUntilFreeOnHost p h r t
  | call_waitUntilUsed p r t => waitUntilUsed p r t
  | call_waitUntilUsedOnHost p h r t => waitUntilUsedOnHost p h r t
  end.

(** The states a session goes through: the one its invocation
    returns, then one event at a time. *)
Inductive reachable : session → Prop :=
  | reach_invoke c s :
      invoke c = Normal s → reachable s
  | reach_step s ev s' :
      reachable s → step ev s = Some (Normal s') → reachable s'.

(** Nothing more can happen to the session. *)
Definition quiescent (s : session) : Prop := ∀ ev, step ev s = None.

End Polling.

(** *** States and observations used in the proofs *)

Section Normalised.

Variable host_syntax : string → bool.

(** The host a call ends up with. *)
Definition host_or_default (host : val) : val :=
  if negb (Is2.hostAddress host_syntax host) then VStr "127.0.0.1" else host.

Definition subscribed_socket : EventEmitter.t listener :=
  EventEmitter.once "error" onErrorCb (EventEmitter.once "connect" onConnectCb ∅).

Definition connecting (port host : val) : probe :=
  {| p_deferred := []; p_inUse := true;
     p_client := Some {| Net.conn_state := Net.Connecting port (host_or_default host);
                         Net.listeners := subscribed_socket |} |}.

End Normalised.

Definition deadline_timer (s : session) : Timers.timer timer_fn :=
  {| Timers.repeat := false; Timers.callback := timeoutFunc;
     Timers.delay := s_timeOutMs s |}.

Definition retry_timer (s : session) : Timers.timer timer_fn :=
  {| Timers.repeat := false; Timers.callback := retry_doCheck;
     Timers.delay := s_retryTimeMs s |}.

(** A session that has not settled: the deadline is armed, and either
    one probe is in flight or the retry timer is armed. *)
Definition running (s : session) : Prop :=
  s_deferred s = [] ∧ s_timedout s = false ∧
  Is2.port (s_port s) = true ∧ (∃ h, s_host s = VStr h) ∧
  ∃ ht, s_timeoutId s = Some ht ∧ ht < Timers.fresh (s_timers s) ∧
    ((Timers.armed (s_timers s) = {[ht := deadline_timer s]} ∧
      length (s_checks s) = 1)
     ∨
     (∃ hr, s_retryId s = Some hr ∧ hr ≠ ht ∧ hr < Timers.fresh (s_timers s) ∧
            Timers.armed (s_timers s) = <[hr := retry_timer s]> {[ht := deadline_timer s]} ∧
            s_checks s = [])).

(** A session that has settled: one call on its deferred, no timer
    armed, and no probe in flight unless the deadline cut one short. *)
Definition settled (s : session) : Prop :=
  (∃ x, s_deferred s = [x]) ∧ Timers.armed (s_timers s) = ∅ ∧
  (s_checks s = [] ∨ (s_timedout s = true ∧ length (s_checks s) ≤ 1)).

Definition inv (s : session) : Prop := running s ∨ settled s.

(** The error a refused port is reported with. *)
Definition invalid_port (port : val) : js_error :=
  new_Error ("invalid port: " +:+ inspect port).

(** What a probe has asked of the network and not heard about yet. *)
Definition connect_request (p : probe) : option request :=
  match p_client p with
  | Some client =>
      match Net.conn_state client with
      | Net.Connecting port host => Some (connect_to port host)
      | _ => None
      end
  | None => None
  end.

(** *** Schedules used in the further properties *)

(** The port and the host a call names; the no-host variants name
    ['127.0.0.1']. *)
Definition call_port (c : invocation) : val :=
  match c with
  | call_waitUntilFree p _ _ | call_waitUntilFreeOnHost p _ _ _
  | call_waitUntilUsed p _ _ | call_waitUntilUsedOnHost p _ _ _ => p
  end.

Definition call_host (c : invocation) : val :=
  match c with
  | call_waitUntilFree _ _ _ | call_waitUntilUsed _ _ _ => VStr "127.0.0.1"
  | call_waitUntilFreeOnHost _ h _ _ | call_waitUntilUsedOnHost _ h _ _ => h
  end.

(** Whether a probe result is the state the operation waits for. *)
Definition wanted (op : operation) (inUse : bool) : bool :=
  match op with
  | UntilFree => negb inUse
  | UntilUsed => inUse
  end.

(** What the network does to a probe of a port that is in use, or
    free. *)
Definition answer (inUse : bool) : Net.socket_event :=
  if inUse then Net.connect_ev else Net.error_ev "ECONNREFUSED" "connect ECONNREFUSED".

Section Targets.

Variable host_syntax : string → bool.

(** The session between two rounds: the deadline (handle 0) armed, one
    probe outstanding, [k] the next fresh timer handle. *)
Definition between_rounds op port hs rt tt rid k : session :=
  mk_session op port (VStr hs) rt tt [] false rid (Some 0)
    {| Timers.armed := {[0 := Timers.mk_timer false timeoutFunc tt]};
       Timers.fresh := k |}
    [connecting host_syntax port (VStr hs)].

(** The probes of a session only ever connect to its port and host,
    and the host of a session on a valid port is already
    normalised. *)
Definition on_target (s : session) : Prop :=
  (Is2.port (s_port s) = true →
   host_or_default host_syntax (s_host s) = s_host s)
  ∧ ∀ p q, p ∈ s_checks s → connect_request p = Some q →
           q = connect_to (s_port s) (s_host s).

End Targets.

(** [n] polling rounds in a row, the first one waiting on retry timer
    [k]: the outstanding probe gets [ev], its result is handled, and
    the retry timer fires. *)
Fixpoint rounds (ev : Net.socket_event) (k n : nat) : list event :=
  match n with
  | 0 => []
  | S n => network 0 ev :: promise_settled 0 :: timer_fires k :: rounds ev (S k) n
  end.

End HostAware.

(** ** The predecessor: bind-based probe, interval-driven polling *)

Module Interval.

(** *** [check] *)

(** The anonymous functions [check] subscribes to its server, named
    after the event they are subscribed to. *)
Inductive handler : Type := on_error | on_listening | on_close.

Record probe : Type := mk_probe {
  p_deferred : Promise.deferred bool;
  p_inUse : bool;
  p_server : Net.Server handler
}.

Definition check (port : val) : probe :=
  let deferred := Promise.defer in
  let inUse := true in
  let deferred :=
    if negb (Is2.port port)
    then Promise.reject (new_Error ("Invalid port: " +:+ inspect port)) deferred
    else deferred in
  let server := Net.createServer in
  let server := Net.server_once "error" on_error server in
  let server := Net.server_once "listening" on_listening server in
  let server := Net.listen port server in
  {| p_deferred := deferred; p_inUse := inUse; p_server := server |}.

Definition cleanup (p : probe) : probe :=
  {| p_deferred := p_deferred p;
     p_inUse := p_inUse p;
     p_server := Net.server_removeAllListeners "close"
                   (Net.server_removeAllListeners "listening"
                      (Net.server_removeAllListeners "error" (p_server p))) |}.

Definition run_on_error (err : js_error) (p : probe) : probe :=
  let p :=
    if bool_decide (code err = Some "EADDRINUSE") then
      {| p_deferred := Promise.resolve (p_inUse p) (p_deferred p);
         p_inUse := p_inUse p; p_server := p_server p |}
    else
      {| p_deferred := Promise.reject err (p_deferred p);
         p_inUse := p_inUse p; p_server := p_server p |} in
  cleanup p.

Definition run_on_listening (p : probe) : probe :=
  {| p_deferred := p_deferred p;
     p_inUse := p_inUse p;
     p_server := Net.close (Net.server_once "close" on_close (p_server p)) |}.

Definition run_on_close (p : probe) : probe :=
  let p := cleanup p in
  {| p_deferred := Promise.resolve (negb (p_inUse p)) (p_deferred p);
     p_inUse := p_inUse p; p_server := p_server p |}.

(** [on_error] is only ever subscribed to ['error']. *)
Definition call (ev : Net.server_event) (h : handler) (p : probe) : probe :=
  match h, ev with
  | on_error, Net.srv_error errno msg => run_on_error (system_error errno msg) p
  | on_error, _ => p
  | on_listening, _ => run_on_listening p
  | on_close, _ => run_on_close p
  end.

Definition server_emits (ev : Net.server_event) (p : probe) : option probe :=
  '(hs, server') ← Net.server_deliver ev (p_server p);
  Some (foldl (λ p h, call ev h p)
              {| p_deferred := p_deferred p; p_inUse := p_inUse p;
                 p_server := server' |}
              hs).

(** *** [waitUntilFree] *)

(** The functions handed to [setTimeout] and [setInterval]. *)
Inductive timer_fn : Type := set_done | tick.

(** The variables of one [waitUntilFree] call; the server and the
    interval do not exist when the port was refused. *)
Record free_session : Type := mk_free {
  f_port : val;
  f_retryTimeMs : val;
  f_timeOutMs : val;
  f_deferred : Promise.deferred unit;
  f_done : bool;
  f_timeoutId : option nat;
  f_interval : option nat;
  f_server : option (Net.Server handler);
  f_timers : Timers.t timer_fn
}.

Definition f_with_deferred (d : Promise.deferred unit) (s : free_session) :=
  mk_free (f_port s) (f_retryTimeMs s) (f_timeOutMs s) d (f_done s)
          (f_timeoutId s) (f_interval s) (f_server s) (f_timers s).

Definition f_with_done (b : bool) (s : free_session) :=
  mk_free (f_port s) (f_retryTimeMs s) (f_timeOutMs s) (f_deferred s) b
          (f_timeoutId s) (f_interval s) (f_server s) (f_timers s).

Definition f_with_server (srv : option (Net.Server handler)) (s : free_session) :=
  mk_free (f_port s) (f_retryTimeMs s) (f_timeOutMs s) (f_deferred s) (f_done s)
          (f_timeoutId s) (f_interval s) srv (f_timers s).

Definition f_with_timers (ts : Timers.t timer_fn) (s : free_session) :=
  mk_free (f_port s) (f_retryTimeMs s) (f_timeOutMs s) (f_deferred s) (f_done s)
          (f_timeoutId s) (f_interval s) (f_server s) ts.

Definition f_clear (h : option nat) (s : free_session) : free_session :=
  match h with
  | Some h => f_with_timers (Timers.clear h (f_timers s)) s
  | None => s
  end.

Definition waitUntilFree (port retryTimeMs timeOutMs : val) : free_session :=
  let deferred := Promise.defer in
  let done := false in
  if negb (Is2.port port) then
    mk_free port retryTimeMs timeOutMs
      (Promise.reject (new_Error ("waitUntilFree: invalid port: " +:+ inspect port))
                      deferred)
      done None None None Timers.none
  else
    let timeOutMs := if negb (Is2.positiveInt timeOutMs) then VInt 100 else timeOutMs in
    let timeOutMs := if negb (Is2.positiveInt timeOutMs) then VInt 300 else timeOutMs in
    let '(timeoutId, timers) := Timers.setTimeout set_done timeOutMs Timers.none in
    let server := Net.createServer in
    let '(interval, timers) := Timers.setInterval tick retryTimeMs timers in
    let server := Net.server_on "error" on_error server in
    let server := Net.server_once "listening" on_listening server in
    mk_free port retryTimeMs timeOutMs deferred done
            (Some timeoutId) (Some interval) (Some server) timers.

Definition f_listen (s : free_session) : free_session :=
  f_with_server (Net.listen (f_port s) <$> f_server s) s.

(** The interval callback. *)
Definition f_tick (s : free_session) : free_session :=
  let s :=
    if f_done s then
      let s := f_clear (f_interval s) s in
      f_with_deferred
        (Promise.reject
           (new_Error ("waitUntilFree: timeout after "
                       +:+ to_string (f_timeOutMs s) +:+ " ms."))
           (f_deferred s)) s
    else s in
  f_listen s.

Definition f_cleanup (s : free_session) : free_session :=
  let s := f_clear (f_interval s) s in
  let s := f_clear (f_timeoutId s) s in
  f_with_server
    (Net.server_removeAllListeners "error"
       <$> (Net.server_removeAllListeners "close" <$> f_server s)) s.

Definition f_on_error (err : js_error) (s : free_session) : free_session :=
  if negb (bool_decide (code err = Some "EADDRINUSE")) then
    let s := f_cleanup s in
    f_with_deferred (Promise.reject err (f_deferred s)) s
  else s.

Definition f_on_listening (s : free_session) : free_session :=
  let s := f_clear (f_interval s) s in
  let s := f_clear (f_timeoutId s) s in
  f_with_server (Net.close <$> (Net.server_once "close" on_close <$> f_server s)) s.

Definition f_on_close (s : free_session) : free_session :=
  f_with_deferred (Promise.resolve () (f_deferred s)) s.

Definition f_call (ev : Net.server_event) (h : handler) (s : free_session)
  : free_session :=
  match h, ev with
  | on_error, Net.srv_error errno msg => f_on_error (system_error errno msg) s
  | on_error, _ => s
  | on_listening, _ => f_on_listening s
  | on_close, _ => f_on_close s
  end.

Inductive free_event : Type :=
  | f_timer_fires (h : nat)
  | f_server_event (ev : Net.server_event).

Definition f_step (ev : free_event) (s : free_session) : option free_session :=
  match ev with
  | f_timer_fires h =>
      '(fn, timers) ← Timers.fire h (f_timers s);
      let s := f_with_timers timers s in
      Some (match fn with
            | set_done => f_with_done true s
            | tick => f_tick s
            end)
  | f_server_event ev =>
      server ← f_server s;
      '(hs, server') ← Net.server_deliver ev server;
      Some (foldl (λ s h, f_call ev h s) (f_with_server (Some server') s) hs)
  end.

(** Several events in a row. *)
Fixpoint f_run (evs : list free_event) (s : free_session) : option free_session :=
  match evs with
  | [] => Some s
  | ev :: evs => s' ← f_step ev s; f_run evs s'
  end.

(** *** [waitUntilUsed] *)

(** The closures each interval tick subscribes to the socket it
    creates. *)
Inductive listener : Type := onConnectCb | onErrorCb.

(** The variables of one [waitUntilUsed] call and the sockets its
    ticks have created, oldest first. *)
Record used_session : Type := mk_used {
  u_port : val;
  u_retryTimeMs : val;
  u_timeOutMs : val;
  u_deferred : Promise.deferred unit;
  u_done : bool;
  u_timeoutId : option nat;
  u_interval : option nat;
  u_timers : Timers.t timer_fn;
  u_clients : list (Net.Socket listener)
}.

Definition u_with_deferred (d : Promise.deferred unit) (s : used_session) :=
  mk_used (u_port s) (u_retryTimeMs s) (u_timeOutMs s) d (u_done s)
          (u_timeoutId s) (u_interval s) (u_timers s) (u_clients s).

Definition u_with_done (b : bool) (s : used_session) :=
  mk_used (u_port s) (u_retryTimeMs s) (u_timeOutMs s) (u_deferred s) b
          (u_timeoutId s) (u_interval s) (u_timers s) (u_clients s).

Definition u_with_timers (ts : Timers.t timer_fn) (s : used_session) :=
  mk_used (u_port s) (u_retryTimeMs s) (u_timeOutMs s) (u_deferred s) (u_done s)
          (u_timeoutId s) (u_interval s) ts (u_clients s).

Definition u_with_clients (cs : list (Net.Socket listener)) (s : used_session) :=
  mk_used (u_port s) (u_retryTimeMs s) (u_timeOutMs s) (u_deferred s) (u_done s)
          (u_timeoutId s) (u_interval s) (u_timers s) cs.

Definition u_clear (h : option nat) (s : used_session) : used_session :=
  match h with
  | Some h => u_with_timers (Timers.clear h (u_timers s)) s
  | None => s
  end.

Definition waitUntilUsed (port retryTimeMs timeOutMs : val) : used_session :=
  let deferred := Promise.defer in
  let done := false in
  if negb (Is2.port port) then
    mk_used port retryTimeMs timeOutMs
      (Promise.reject
         (new_Error ("waitUntilListening: invalid port: " +:+ inspect port)) deferred)
      done None None Timers.none []
  else
    let timeOutMs := if negb (Is2.positiveInt retryTimeMs) then VInt 100 else timeOutMs in
    let timeOutMs := if negb (Is2.positiveInt timeOutMs) then VInt 300 else timeOutMs in
    let '(timeoutId, timers) :=
      if Is2.positiveInt timeOutMs
      then let '(h, ts) := Timers.setTimeout set_done timeOutMs Timers.none in (Some h, ts)
      else (None, Timers.none) in
    let '(interval, timers) := Timers.setInterval tick retryTimeMs timers in
    mk_used port retryTimeMs timeOutMs deferred done
            timeoutId (Some interval) timers [].

(** [cleanUp] as the tick that created socket [i] sees it; [None] is
    the call at the top of a tick, made before its socket exists. *)
Definition u_cleanUp (i : option nat) (s : used_session) : used_session :=
  let s :=
    match i with
    | Some i =>
        match u_clients s !! i with
        | Some client =>
            u_with_clients
              (<[i := Net.removeAllListeners "error"
                        (Net.removeAllListeners "connect" client)]> (u_clients s)) s
        | None => s
        end
    | None => s
    end in
  let s := u_clear (u_interval s) s in
  u_clear (u_timeoutId s) s.

(** The interval callback. *)
Definition u_tick (s : used_session) : completion used_session :=
  let s :=
    if u_done s then
      let s := u_cleanUp None s in
      u_with_deferred
        (Promise.reject (new_Error "waitUntilListening: timeout.") (u_deferred s)) s
    else s in
  let client := Net.new_Socket in
  let client := Net.once "connect" onConnectCb client in
  let client := Net.once "error" onErrorCb client in
  client ⇐ Net.connect (u_port s) VUndefined client;
  Normal (u_with_clients (u_clients s ++ [client]) s).

Definition u_onConnectCb (i : nat) (s : used_session) : used_session :=
  u_cleanUp (Some i) (u_with_deferred (Promise.resolve () (u_deferred s)) s).

Definition u_onErrorCb (i : nat) (err : js_error) (s : used_session) : used_session :=
  if negb (bool_decide (code err = Some "ECONNREFUSED")) then
    let s := u_cleanUp (Some i) s in
    u_with_deferred (Promise.reject err (u_deferred s)) s
  else s.

Definition u_call (i : nat) (ev : Net.socket_event) (l : listener) (s : used_session)
  : used_session :=
  match l, ev with
  | onConnectCb, _ => u_onConnectCb i s
  | onErrorCb, Net.error_ev errno msg => u_onErrorCb i (system_error errno msg) s
  | onErrorCb, Net.connect_ev => s
  end.

Inductive used_event : Type :=
  | u_timer_fires (h : nat)
  | u_network (i : nat) (ev : Net.socket_event).

Definition u_step (ev : used_event) (s : used_session)
  : option (completion used_session) :=
  match ev with
  | u_timer_fires h =>
      '(fn, timers) ← Timers.fire h (u_timers s);
      let s := u_with_timers timers s in
      Some (match fn with
            | set_done => Normal (u_with_done true s)
            | tick => u_tick s
            end)
  | u_network i ev =>
      client ← u_clients s !! i;
      '(ls, client') ← Net.deliver ev client;
      Some (Normal (foldl (λ s l, u_call i ev l s)
                          (u_with_clients (<[i := client']> (u_clients s)) s) ls))
  end.

Fixpoint u_run (evs : list used_event) (s : used_session) : option used_session :=
  match evs with
  | [] => Some s
  | ev :: evs =>
      match u_step ev s with
      | Some (Normal s') => u_run evs s'
      | _ => None
      end
  end.

(** The probes of a session that are still in flight: sockets that
    were told to connect and have heard nothing yet. *)
Definition is_connecting (c : Net.Socket listener) : bool :=
  match Net.conn_state c with Net.Connecting _ _ => true | _ => false end.

Definition u_outstanding (s : used_session) : nat :=
  length (List.filter is_connecting (u_clients s)).

(** *** States and observations used in the proofs *)

(** [check] on a port it accepts. *)
Definition binding (port : val) : probe :=
  {| p_deferred := []; p_inUse := true;
     p_server :=
       {| Net.bind_state := Net.Binding port;
          Net.handlers := Net.listening_server on_error on_listening |} |}.

(** The probe between ['listening'] and ['close']: [close] has been
    called and nothing has been reported. *)
Definition closing : probe :=
  {| p_deferred := []; p_inUse := true;
     p_server :=
       {| Net.bind_state := Net.Closing;
          Net.handlers :=
            EventEmitter.once "close" on_close
              (EventEmitter.once "error" on_error ∅) |} |}.

(** Every tick of a session on a valid port opens one more socket,
    whatever the earlier ones are doing. *)
Definition fresh_client (port : val) : Net.Socket listener :=
  {| Net.conn_state := Net.Connecting port VUndefined;
     Net.listeners :=
       EventEmitter.once "error" onErrorCb (EventEmitter.once "connect" onConnectCb ∅) |}.

(** What a probe has asked of the network and not heard about yet. *)
Definition bind_request (p : probe) : option request :=
  match Net.bind_state (p_server p) with
  | Net.Binding port => Some (bind_to port)
  | _ => None
  end.

(** *** Schedules used in the further properties *)

(** Several server events in a row, for a [check]. *)
Fixpoint p_run (evs : list Net.server_event) (p : probe) : option probe :=
  match evs with
  | [] => Some p
  | ev :: evs => p' ← server_emits ev p; p_run evs p'
  end.

(** The session [waitUntilFree] returns on a valid port, [T] being
    the timeout it ends up with: deadline 0 and interval 1 armed, the
    server created and subscribed, nothing bound yet. *)
Definition free_polling (port r T : val) : free_session :=
  mk_free port r T [] false (Some 0) (Some 1)
    (Some (Net.server_once "listening" on_listening
             (Net.server_on "error" on_error Net.createServer)))
    (Timers.setInterval tick r (Timers.setTimeout set_done T Timers.none).2).2.

(** The session [waitUntilUsed] has on a valid port between two
    ticks: deadline 0 and interval 1 armed, and the sockets of the
    earlier ticks. *)
Definition used_polling (port r T : val) (cs : list (Net.Socket listener))
  : used_session :=
  mk_used port r T [] false (Some 0) (Some 1)
    (Timers.setInterval tick r (Timers.setTimeout set_done T Timers.none).2).2 cs.

(** A refused socket: closed, its ['connect'] listener never
    removed. *)
Definition refused_client : Net.Socket listener :=
  {| Net.conn_state := Net.Closed;
     Net.listeners := EventEmitter.once "connect" onConnectCb ∅ |}.

(** [n] rounds of [waitUntilFree] on a port that is taken: the
    interval (handle [iv]) ticks and the bind fails with
    EADDRINUSE. *)
Fixpoint f_rounds (iv n : nat) : list free_event :=
  match n with
  | 0 => []
  | S n =>
      f_timer_fires iv
        :: f_server_event (Net.srv_error "EADDRINUSE" "listen EADDRINUSE")
        :: f_rounds iv n
  end.

(** [n] rounds of [waitUntilUsed] on a port nobody listens on: the
    interval (handle [iv]) ticks and the socket the tick created,
    the [k]-th of the session, is refused. *)
Fixpoint u_rounds (iv k n : nat) : list used_event :=
  match n with
  | 0 => []
  | S n =>
      u_timer_fires iv
        :: u_network k (Net.error_ev "ECONNREFUSED" "connect ECONNREFUSED")
        :: u_rounds iv (S k) n
  end.

End Interval.

(** ** The first release: bind-based probe only *)

Module Original.

Inductive handler : Type := on_error | on_listening | on_close.

Record probe : Type := mk_probe {
  p_deferred : Promise.deferred bool;
  p_inUse : bool;
  p_server : Net.Server handler
}.

(** [port > 65535] is only evaluated on a positive integer. *)
Definition above_range (port : val) : bool :=
  match port with
  | VInt z => bool_decide (65535 < z)%Z
  | _ => false
  end.

Definition check (port : val) : probe :=
  let deferred := Promise.defer in
  let inUse := true in
  let deferred :=
    if negb (Is2.positiveInt port) || above_range port
    then Promise.reject (new_Error ("Invalid port: " +:+ to_string port)) deferred
    else deferred in
  let server := Net.createServer in
  let server := Net.server_once "error" on_error server in
  let server := Net.server_once "listening" on_listening server in
  let server := Net.listen port server in
  {| p_deferred := deferred; p_inUse := inUse; p_server := server |}.

Definition run_on_error (err : js_error) (p : probe) : probe :=
  if bool_decide (code err = Some "EADDRINUSE") then
    {| p_deferred := Promise.resolve (p_inUse p) (p_deferred p);
       p_inUse := p_inUse p; p_server := p_server p |}
  else
    {| p_deferred := Promise.reject err (p_deferred p);
       p_inUse := p_inUse p; p_server := p_server p |}.

Definition run_on_listening (p : probe) : probe :=
  {| p_deferred := p_deferred p;
     p_inUse := p_inUse p;
     p_server := Net.close (Net.server_once "close" on_close (p_server p)) |}.

Definition run_on_close (p : probe) : probe :=
  {| p_deferred := Promise.resolve (negb (p_inUse p)) (p_deferred p);
     p_inUse := p_inUse p; p_server := p_server p |}.

Definition call (ev : Net.server_event) (h : handler) (p : probe) : probe :=
  match h, ev with
  | on_error, Net.srv_error errno msg => run_on_error (system_error errno msg) p
  | on_error, _ => p
  | on_listening, _ => run_on_listening p
  | on_close, _ => run_on_close p
  end.

Definition server_emits (ev : Net.server_event) (p : probe) : option probe :=
  '(hs, server') ← Net.server_deliver ev (p_server p);
  Some (foldl (λ p h, call ev h p)
              {| p_deferred := p_deferred p; p_inUse := p_inUse p;
                 p_server := server' |}
              hs).

(** *** States used in the proofs *)

(** The ports the guard of [check] lets through. *)
Definition accepts (port : val) : bool :=
  Is2.positiveInt port && negb (above_range port).

(** [check] on a port it accepts. *)
Definition binding (port : val) : probe :=
  {| p_deferred := []; p_inUse := true;
     p_server :=
       {| Net.bind_state := Net.Binding port;
          Net.handlers := Net.listening_server on_error on_listening |} |}.

(** The probe between ['listening'] and ['close']. *)
Definition closing : probe :=
  {| p_deferred := []; p_inUse := true;
     p_server :=
       {| Net.bind_state := Net.Closing;
          Net.handlers :=
            EventEmitter.once "close" on_close
              (EventEmitter.once "error" on_error ∅) |} |}.

(** Several server events in a row. *)
Fixpoint p_run (evs : list Net.server_event) (p : probe) : option probe :=
  match evs with
  | [] => Some p
  | ev :: evs => p' ← server_emits ev p; p_run evs p'
  end.

End Original.

(** * Proofs *)

Import Promise.

Arguments EventEmitter.emit : simpl never.
Arguments EventEmitter.once : simpl never.
Arguments EventEmitter.on : simpl never.
Arguments EventEmitter.removeAllListeners : simpl never.

Section HostAwareProbe.
Import HostAware.
Variable host_syntax : string → bool.

Lemma host_or_default_string host : ∃ h, host_or_default host_syntax host = VStr h.
Proof.
  unfold host_or_default, Is2.hostAddress.
  destruct host; simpl; eauto. destruct (host_syntax s); simpl; eauto.
Qed.

Lemma check_valid port host :
  Is2.port port = true → check host_syntax port host = Normal (connecting host_syntax port host).
Proof.
  intros Hp. unfold check. rewrite Hp. simpl.
  fold (host_or_default host_syntax host).
  destruct (host_or_default_string host) as [h Hh].
  unfold Net.connect, Net.legal_target. rewrite Hp, Hh. simpl.
  unfold connecting. rewrite Hh. reflexivity.
Qed.

Lemma emit_connect_subscribed :
  EventEmitter.emit "connect" subscribed_socket
  = ([onConnectCb], EventEmitter.once "error" onErrorCb ∅).
Proof. vm_compute. reflexivity. Qed.

Lemma emit_error_subscribed :
  EventEmitter.emit "error" subscribed_socket
  = ([onErrorCb], EventEmitter.once "connect" onConnectCb ∅).
Proof. vm_compute. reflexivity. Qed.

Lemma cleanUp_after_connect :
  EventEmitter.removeAllListeners "error"
    (EventEmitter.removeAllListeners "connect"
       (EventEmitter.once (C:=listener) "error" onErrorCb ∅)) = ∅.
Proof. vm_compute. reflexivity. Qed.

Lemma cleanUp_after_error :
  EventEmitter.removeAllListeners "error"
    (EventEmitter.removeAllListeners "connect"
       (EventEmitter.once (C:=listener) "connect" onConnectCb ∅)) = ∅.
Proof. vm_compute. reflexivity. Qed.

Lemma deliver_connect port h :
  Net.deliver Net.connect_ev
    {| Net.conn_state := Net.Connecting port h; Net.listeners := subscribed_socket |}
  = Some ([onConnectCb],
          {| Net.conn_state := Net.Open;
             Net.listeners := EventEmitter.once "error" onErrorCb ∅ |}).
Proof.
  unfold Net.deliver. cbn [Net.conn_state Net.listeners Net.event_name].
  rewrite emit_connect_subscribed. reflexivity.
Qed.

Lemma deliver_error port h errno msg :
  Net.deliver (Net.error_ev errno msg)
    {| Net.conn_state := Net.Connecting port h; Net.listeners := subscribed_socket |}
  = Some ([onErrorCb],
          {| Net.conn_state := Net.Closed;
             Net.listeners := EventEmitter.once "connect" onConnectCb ∅ |}).
Proof.
  unfold Net.deliver. cbn [Net.conn_state Net.listeners Net.event_name].
  rewrite emit_error_subscribed. reflexivity.
Qed.

Ltac probe_event lem :=
  unfold socket_emits, connecting; cbn [p_client mbind option_bind];
  rewrite lem; cbn [mbind option_bind foldl call p_deferred p_inUse p_client].

Lemma connect_succeeds port host :
  socket_emits Net.connect_ev (connecting host_syntax port host)
  = Some {| p_deferred := [Resolve true]; p_inUse := true;
            p_client := Some {| Net.conn_state := Net.Open; Net.listeners := ∅ |} |}.
Proof.
  probe_event deliver_connect.
  unfold run_onConnectCb, check_cleanUp, Net.removeAllListeners.
  cbn [p_client p_deferred p_inUse Net.listeners Net.conn_state].
  rewrite cleanUp_after_connect. reflexivity.
Qed.

Lemma connect_refused port host msg :
  socket_emits (Net.error_ev "ECONNREFUSED" msg) (connecting host_syntax port host)
  = Some {| p_deferred := [Resolve false]; p_inUse := false;
            p_client := Some {| Net.conn_state := Net.Closed; Net.listeners := ∅ |} |}.
Proof.
  probe_event deliver_error.
  unfold run_onErrorCb. rewrite bool_decide_eq_true_2 by done.
  unfold check_cleanUp, Net.removeAllListeners.
  cbn [negb p_client p_deferred p_inUse Net.listeners Net.conn_state].
  rewrite cleanUp_after_error. reflexivity.
Qed.

Lemma connect_fails port host errno msg :
  errno ≠ "ECONNREFUSED" →
  socket_emits (Net.error_ev errno msg) (connecting host_syntax port host)
  = Some {| p_deferred := [Reject (system_error errno msg)]; p_inUse := true;
            p_client := Some {| Net.conn_state := Net.Closed; Net.listeners := ∅ |} |}.
Proof.
  intros Hc. probe_event deliver_error.
  unfold run_onErrorCb. rewrite bool_decide_eq_false_2 by (cbn; congruence).
  unfold check_cleanUp, Net.removeAllListeners.
  cbn [negb p_client p_deferred p_inUse Net.listeners Net.conn_state].
  rewrite cleanUp_after_error. reflexivity.
Qed.
End HostAwareProbe.


Section HostAwarePolling.
Import HostAware.
Variable host_syntax : string → bool.

Lemma inv_waitUntilFreeOnHost p h r t :
  ∃ s, waitUntilFreeOnHost host_syntax p h r t = Normal s ∧ inv s.
Proof.
  unfold waitUntilFreeOnHost.
  destruct (Is2.port p) eqn:Hp; cbn [negb].
  - destruct (host_or_default_string host_syntax h) as [h' Hh].
    fold (host_or_default host_syntax h). rewrite Hh.
    unfold doCheck, Timers.setTimeout, Timers.arm, Timers.none.
    cbn [Timers.fresh Timers.armed s_port s_host].
    rewrite check_valid by done. cbn [cbind].
    eexists; split; [reflexivity|]. left.
    unfold running, with_checks; cbn.
    repeat split; eauto. exists 0. split; [done|]. split; [lia|].
    left. split; [|done]. reflexivity.
  - eexists; split; [reflexivity|]. right.
    unfold settled; cbn. eauto.
Qed.

Lemma inv_waitUntilUsedOnHost p h r t :
  ∃ s, waitUntilUsedOnHost host_syntax p h r t = Normal s ∧ inv s.
Proof.
  unfold waitUntilUsedOnHost.
  destruct (Is2.port p) eqn:Hp; cbn [negb].
  - destruct (host_or_default_string host_syntax h) as [h' Hh].
    fold (host_or_default host_syntax h). rewrite Hh.
    unfold doCheck, Timers.setTimeout, Timers.arm, Timers.none.
    cbn [Timers.fresh Timers.armed s_port s_host].
    rewrite check_valid by done. cbn [cbind].
    eexists; split; [reflexivity|]. left.
    unfold running, with_checks; cbn.
    repeat split; eauto. exists 0. split; [done|]. split; [lia|].
    left. split; [|done]. reflexivity.
  - eexists; split; [reflexivity|]. right.
    unfold settled; cbn. eauto.
Qed.

Lemma inv_invoke c : ∃ s, invoke host_syntax c = Normal s ∧ inv s.
Proof.
  destruct c; cbn [invoke]; unfold waitUntilFree, waitUntilUsed;
    auto using inv_waitUntilFreeOnHost, inv_waitUntilUsedOnHost.
Qed.


Ltac map_solve :=
  apply map_eq; intros ?k;
  repeat (rewrite ?lookup_delete, ?lookup_insert, ?lookup_singleton, ?lookup_empty;
          repeat case_decide; subst; try done).

Ltac open_session :=
  cbv beta iota zeta delta
    [inv running settled run_timeoutFunc cleanUp then_fulfilled
     free_fulfilled used_fulfilled then_rejected schedule_retry
     with_deferred with_timedout with_retryId with_timers with_checks
     Timers.clear Timers.setTimeout Timers.arm deadline_timer retry_timer
     s_op s_port s_host s_retryTimeMs s_timeOutMs s_deferred s_timedout
     s_retryId s_timeoutId s_timers s_checks Timers.armed Timers.fresh
     Promise.reject Promise.resolve app].


Ltac finish :=
  lazymatch goal with
  | |- @eq (gmap _ _) _ _ => map_solve
  | |- _ => first [done | lia | by eauto | by (right; split; [done|simpl; lia])]
  end.

Lemma fire_only_deadline h ht (D : Timers.timer timer_fn) nxt r :
  Timers.fire h {| Timers.armed := {[ht := D]}; Timers.fresh := nxt |} = Some r →
  h = ht ∧ r = (Timers.callback D,
                if Timers.repeat D
                then {| Timers.armed := {[ht := D]}; Timers.fresh := nxt |}
                else {| Timers.armed := delete ht {[ht := D]}; Timers.fresh := nxt |}).
Proof.
  unfold Timers.fire, Timers.clear. cbn [Timers.armed Timers.fresh].
  destruct (decide (h = ht)) as [->|Hne].
  - rewrite lookup_singleton_eq. intros [= <-]. done.
  - rewrite lookup_singleton_ne by done. done.
Qed.

Ltac now_probing ht :=
  left; open_session; repeat (split; [by eauto|]);
  exists ht; (split; [done|]); (split; [lia|]); left; split; [finish | done].

Ltac now_waiting ht hr :=
  left; open_session; repeat (split; [by eauto|]);
  exists ht; (split; [done|]); (split; [lia|]); right;
  exists hr; repeat (split; [finish|]); done.

Ltac now_settled :=
  right; open_session; (split; [by eauto|]); split; finish.

Lemma step_probing op port hs rt tt rid ht nxt p ev r :
  Is2.port port = true → ht < nxt →
  step host_syntax ev
    (mk_session op port (VStr hs) rt tt [] false rid (Some ht)
       {| Timers.armed :=
            {[ht := Timers.mk_timer false timeoutFunc tt]};
          Timers.fresh := nxt |} [p]) = Some r →
  ∃ s', r = Normal s' ∧ inv s'.
Proof.
  intros Hport Hfresh Hstep.
  destruct ev as [h | i ev | i]; cbn in Hstep.
  - destruct (Timers.fire h _) as [[fn ts]|] eqn:Hfire; [|discriminate].
    apply fire_only_deadline in Hfire as [-> [= -> ->]].
    cbn in Hstep. injection Hstep as <-.
    eexists; split; [reflexivity|].
    destruct rid; now_settled.
  - destruct i as [|i]; [|discriminate]. cbn in Hstep.
    destruct (socket_emits ev p) as [p'|]; [|discriminate]. cbn in Hstep.
    injection Hstep as <-. eexists; split; [reflexivity|].
    now_probing ht.
  - destruct i as [|i]; [|discriminate]. cbn in Hstep.
    destruct (Promise.promise (p_deferred p)) as [|inUse|err]; [discriminate|..];
      injection Hstep as <-; (eexists; split; [reflexivity|]).
    + destruct op, inUse, rid;
        first [now_settled | now_waiting ht nxt].
    + destruct rid; now_settled.
Qed.

Lemma step_waiting op port hs rt tt ht hr nxt ev r :
  Is2.port port = true → ht < nxt → hr < nxt → hr ≠ ht →
  step host_syntax ev
    (mk_session op port (VStr hs) rt tt [] false (Some hr) (Some ht)
       {| Timers.armed :=
            <[hr := Timers.mk_timer false retry_doCheck rt]>
              {[ht := Timers.mk_timer false timeoutFunc tt]};
          Timers.fresh := nxt |} []) = Some r →
  ∃ s', r = Normal s' ∧ inv s'.
Proof.
  intros Hport Hfresh Hrfresh Hne Hstep.
  destruct ev as [h | i ev | i]; cbn in Hstep; [|discriminate..].
  unfold Timers.fire in Hstep. cbn [Timers.armed] in Hstep.
  destruct (decide (h = hr)) as [->|Hhr].
  - rewrite lookup_insert_eq in Hstep. cbn in Hstep.
    unfold doCheck in Hstep. cbn [s_port s_host with_timers] in Hstep.
    rewrite check_valid in Hstep by done. cbn in Hstep.
    injection Hstep as <-. eexists; split; [reflexivity|].
    now_probing ht.
  - rewrite lookup_insert_ne in Hstep by done.
    destruct (decide (h = ht)) as [->|Hht].
    + rewrite lookup_singleton_eq in Hstep. cbn in Hstep.
      injection Hstep as <-. eexists; split; [reflexivity|]. now_settled.
    + rewrite lookup_singleton_ne in Hstep by done. discriminate.
Qed.

Lemma step_settled s ev r :
  settled s → step host_syntax ev s = Some r → ∃ s', r = Normal s' ∧ inv s'.
Proof.
  destruct s as [op port host rt tt d to rid tid [armed nxt] checks].
  intros ([x Hd] & Harmed & Hchecks) Hstep.
  cbn in Hd, Harmed, Hchecks. subst d armed.
  destruct ev as [h | i ev | i]; cbn in Hstep.
  - unfold Timers.fire in Hstep. cbn in Hstep.
    rewrite lookup_empty in Hstep. discriminate.
  - destruct Hchecks as [-> | [-> Hlen]]; [discriminate|].
    destruct checks as [|p [|]]; [discriminate| |cbn in Hlen; lia].
    destruct i as [|i]; [|discriminate]. cbn in Hstep.
    destruct (socket_emits ev p) as [p'|]; [|discriminate]. cbn in Hstep.
    injection Hstep as <-. eexists; split; [reflexivity|]. now_settled.
  - destruct Hchecks as [-> | [-> Hlen]]; [discriminate|].
    destruct checks as [|p [|]]; [discriminate| |cbn in Hlen; lia].
    destruct i as [|i]; [|discriminate]. cbn in Hstep.
    destruct (Promise.promise (p_deferred p)) as [|inUse|err]; [discriminate|..];
      injection Hstep as <-; (eexists; split; [reflexivity|]).
    + destruct op; now_settled.
    + now_settled.
Qed.

Lemma inv_step s ev r :
  inv s → step host_syntax ev s = Some r → ∃ s', r = Normal s' ∧ inv s'.
Proof.
  intros [Hrun | Hset]; [|by apply step_settled].
  destruct s as [op port host rt tt d to rid tid [armed nxt] checks].
  destruct Hrun as (Hd & Hto & Hport & [hs Hhost] & ht & Htid & Hfresh & Hphase).
  unfold deadline_timer, retry_timer in Hphase.
  cbn in Hd, Hto, Hport, Hhost, Htid, Hfresh, Hphase. subst d to host tid.
  destruct Hphase as [[-> Hlen] | (hr & -> & Hne & Hrfresh & -> & ->)].
  - destruct checks as [|p [|]]; try discriminate Hlen.
    by apply step_probing.
  - by apply step_waiting.
Qed.

Lemma reachable_run evs s s' :
  reachable host_syntax s → run host_syntax evs s = Some s' →
  reachable host_syntax s'.
Proof.
  revert s. induction evs as [|ev evs IH]; intros s Hs; cbn [run].
  - by intros [= <-].
  - destruct (step host_syntax ev s) as [[s1|e]|] eqn:Hstep; [|done..].
    apply IH. by eapply reach_step.
Qed.

Lemma reachable_inv s : reachable host_syntax s → inv s.
Proof.
  induction 1 as [c s Hc | s ev s' _ IH Hstep].
  - destruct (inv_invoke c) as (s0 & Hs0 & Hinv). congruence.
  - destruct (inv_step _ _ _ IH Hstep) as (s0 & [= <-] & Hinv). done.
Qed.

(** *** Consequences of the invariant *)

Lemma running_unsettled s : inv s → s_deferred s = [] → running s.
Proof. intros [H|([x Hx] & _)] Hd; [done|congruence]. Qed.

Lemma settled_of_timedout s : inv s → s_timedout s = true → settled s.
Proof. intros [(_ & Hto & _)|H] Ht; [congruence|done]. Qed.

Lemma deadline_fires s :
  running s →
  ∃ ht s',
    s_timeoutId s = Some ht ∧
    Timers.armed (s_timers s) !! ht = Some (deadline_timer s) ∧
    step host_syntax (timer_fires ht) s = Some (Normal s') ∧
    s_timedout s' = true ∧
    Timers.armed (s_timers s') = ∅ ∧
    s_deferred s' = [Promise.Reject (new_Error "timeout")].
Proof.
  destruct s as [op port host rt tt d to rid tid [armed nxt] checks].
  intros (Hd & Hto & Hport & [hs Hhost] & ht & Htid & Hfresh & Hphase).
  unfold deadline_timer, retry_timer in *.
  cbn in Hd, Hto, Hport, Hhost, Htid, Hfresh, Hphase. subst d to host tid.
  exists ht.
  destruct Hphase as [[-> Hlen] | (hr & -> & Hne & Hrfresh & -> & ->)].
  - eexists. split; [done|]. cbn. unfold Timers.fire. cbn.
    rewrite lookup_singleton_eq. cbn. split; [done|]. split; [reflexivity|].
    destruct rid; open_session; repeat split; finish.
  - eexists. split; [done|]. cbn. unfold Timers.fire. cbn.
    rewrite lookup_insert_ne, lookup_singleton_eq by done. cbn.
    split; [done|]. split; [reflexivity|].
    open_session; repeat split; finish.
Qed.

Lemma then_fulfilled_timedout inUse s :
  s_timedout s = true → then_fulfilled inUse s = s.
Proof.
  intros H. unfold then_fulfilled, free_fulfilled, used_fulfilled.
  rewrite H. by destruct (s_op s).
Qed.

Lemma then_rejected_timedout err s :
  s_timedout s = true → then_rejected err s = s.
Proof. intros H. unfold then_rejected. by rewrite H. Qed.

Lemma settled_stable s ev s' :
  settled s → step host_syntax ev s = Some (Normal s') →
  s_deferred s' = s_deferred s.
Proof.
  intros (_ & Harmed & Hchecks) Hstep.
  destruct ev as [h | i ev | i]; unfold step in Hstep.
  - unfold Timers.fire in Hstep. rewrite Harmed, lookup_empty in Hstep.
    discriminate.
  - destruct (s_checks s !! i) as [p|]; [|discriminate].
    cbn [mbind option_bind] in Hstep.
    destruct (socket_emits ev p) as [p'|]; [|discriminate].
    cbn [mbind option_bind] in Hstep. by injection Hstep as <-.
  - destruct Hchecks as [Hnil | [Hto _]].
    { rewrite Hnil in Hstep. discriminate. }
    destruct (s_checks s !! i) as [p|]; [|discriminate].
    cbn [mbind option_bind] in Hstep.
    destruct (Promise.promise (p_deferred p)) as [|inUse|err]; [discriminate|..];
      injection Hstep as <-.
    + by rewrite then_fulfilled_timedout.
    + by rewrite then_rejected_timedout.
Qed.

Lemma at_most_one_call s : inv s → length (s_deferred s) ≤ 1.
Proof.
  intros [(-> & _)|([x ->] & _)]; cbn; lia.
Qed.

Lemma at_most_one_check s : inv s → length (s_checks s) ≤ 1.
Proof.
  intros [(_ & _ & _ & _ & ht & _ & _ & [[_ ->]|(hr & _ & _ & _ & _ & ->)])
         |(_ & _ & [->|[_ H]])]; cbn; lia.
Qed.

(** C1. In every state a polling session ([waitUntilFreeOnHost],
    [waitUntilUsedOnHost] or a no-host wrapper) can reach, at most one
    [resolve]/[reject] call has been made on its deferred; while none
    has been made the deadline timer is armed and its firing makes
    the one call, so the session cannot hang; once a call has been
    made no event of any kind changes the deferred, and in particular
    a probe result delivered after the deadline fired is discarded;
    and when nothing more can happen exactly one call has been
    made. *)
Theorem exactly_one_settlement (s : session) :
  reachable host_syntax s →
  length (s_deferred s) ≤ 1
  ∧ (s_deferred s = [] →
       ∃ h s', s_timeoutId s = Some h
               ∧ step host_syntax (timer_fires h) s = Some (Normal s')
               ∧ s_deferred s' = [Promise.Reject (new_Error "timeout")])
  ∧ (∀ ev s', s_deferred s ≠ [] →
       step host_syntax ev s = Some (Normal s') → s_deferred s' = s_deferred s)
  ∧ (∀ i s', s_timedout s = true →
       step host_syntax (promise_settled i) s = Some (Normal s') →
       s_deferred s' = s_deferred s)
  ∧ (quiescent host_syntax s → length (s_deferred s) = 1).
Proof.
  intros Hinv%reachable_inv. split; [by apply at_most_one_call|].
  split; [|split; [|split]].
  - intros Hrun%running_unsettled; [|done].
    destruct (deadline_fires s Hrun) as (ht & s' & ? & _ & ? & _ & _ & ?). eauto.
  - intros ev s' Hne Hstep. destruct Hinv as [(Hd & _)|Hset]; [done|].
    by eapply settled_stable.
  - intros i s' Hto Hstep. eapply settled_stable; [|done].
    by apply settled_of_timedout.
  - intros Hq. destruct Hinv as [Hrun|([x ->] & _)]; [|done].
    destruct (deadline_fires s Hrun) as (ht & s' & _ & _ & Hstep & _).
    rewrite Hq in Hstep. discriminate.
Qed.
End HostAwarePolling.

Lemma exactly_one_settlement_witness :
  ∃ s0 s,
    HostAware.invoke (λ _, true)
      (HostAware.call_waitUntilUsed (VInt 44204) (VInt 500) (VInt 4000)) = Normal s0
    ∧ HostAware.run (λ _, true)
        [HostAware.network 0 Net.connect_ev;
         HostAware.timer_fires 0;
         HostAware.promise_settled 0] s0 = Some s
    ∧ HostAware.s_deferred s = [Reject (new_Error "timeout")]
    ∧ length (HostAware.s_deferred s) ≤ 1.
Proof.
  assert (∃ s0 s,
    HostAware.invoke (λ _, true)
      (HostAware.call_waitUntilUsed (VInt 44204) (VInt 500) (VInt 4000)) = Normal s0
    ∧ HostAware.run (λ _, true)
        [HostAware.network 0 Net.connect_ev;
         HostAware.timer_fires 0;
         HostAware.promise_settled 0] s0 = Some s
    ∧ HostAware.s_deferred s = [Reject (new_Error "timeout")])
    as (s0 & s & Hinvoke & Hrun & Hd).
  { eexists _, _. split; [vm_compute; reflexivity|].
    split; vm_compute; reflexivity. }
  exists s0, s. split; [exact Hinvoke|]. split; [exact Hrun|]. split; [exact Hd|].
  apply (exactly_one_settlement (λ _, true)).
  refine (reachable_run (λ _, true) _ s0 s _ Hrun).
  exact (HostAware.reach_invoke _ _ _ Hinvoke).
Defined.


(** ** The bind-based probes *)

Section BindProbes.

Lemma interval_check_valid port :
  Is2.port port = true → Interval.check port = Interval.binding port.
Proof. intros Hp. unfold Interval.check. rewrite Hp. reflexivity. Qed.

Lemma interval_in_use port msg :
  Interval.server_emits (Net.srv_error "EADDRINUSE" msg) (Interval.binding port)
  = Some {| Interval.p_deferred := [Resolve true]; Interval.p_inUse := true;
            Interval.p_server := {| Net.bind_state := Net.Unbound; Net.handlers := ∅ |} |}.
Proof. vm_compute. reflexivity. Qed.

Lemma emit_error_listening {C} (e l : C) :
  EventEmitter.emit "error" (Net.listening_server e l)
  = ([e], EventEmitter.once "listening" l ∅).
Proof. vm_compute. reflexivity. Qed.

Lemma interval_cleanup_after_error :
  EventEmitter.removeAllListeners "close"
    (EventEmitter.removeAllListeners "listening"
       (EventEmitter.removeAllListeners "error"
          (EventEmitter.once "listening" Interval.on_listening ∅))) = ∅.
Proof. vm_compute. reflexivity. Qed.

Lemma interval_bind_fails port errno msg :
  errno ≠ "EADDRINUSE" →
  Interval.server_emits (Net.srv_error errno msg) (Interval.binding port)
  = Some {| Interval.p_deferred := [Reject (system_error errno msg)];
            Interval.p_inUse := true;
            Interval.p_server := {| Net.bind_state := Net.Unbound; Net.handlers := ∅ |} |}.
Proof.
  intros Hne. unfold Interval.server_emits, Interval.binding, Net.server_deliver.
  cbn [Interval.p_server Net.handlers Net.bind_state Net.server_event_name].
  rewrite emit_error_listening.
  cbn [mbind option_bind foldl Interval.call Interval.p_deferred Interval.p_inUse].
  unfold Interval.run_on_error.
  rewrite bool_decide_eq_false_2 by (cbn; congruence).
  unfold Interval.cleanup, Net.server_removeAllListeners.
  cbn [Interval.p_server Interval.p_deferred Interval.p_inUse Net.handlers
       Net.bind_state].
  rewrite interval_cleanup_after_error. reflexivity.
Qed.

Lemma interval_bound port :
  Interval.server_emits Net.srv_listening (Interval.binding port) = Some Interval.closing.
Proof. vm_compute. reflexivity. Qed.

Lemma interval_released :
  Interval.server_emits Net.srv_close Interval.closing
  = Some {| Interval.p_deferred := [Resolve false]; Interval.p_inUse := true;
            Interval.p_server := {| Net.bind_state := Net.Released; Net.handlers := ∅ |} |}.
Proof. vm_compute. reflexivity. Qed.

Lemma original_check_valid port :
  Original.accepts port = true → Original.check port = Original.binding port.
Proof.
  unfold Original.accepts. intros [Hp Ha%negb_true_iff]%andb_true_iff.
  unfold Original.check. rewrite Hp, Ha. reflexivity.
Qed.

Lemma original_in_use port msg :
  Original.p_deferred <$>
    Original.server_emits (Net.srv_error "EADDRINUSE" msg) (Original.binding port)
  = Some [Resolve true].
Proof. vm_compute. reflexivity. Qed.

Lemma original_bind_fails port errno msg :
  errno ≠ "EADDRINUSE" →
  Original.p_deferred <$>
    Original.server_emits (Net.srv_error errno msg) (Original.binding port)
  = Some [Reject (system_error errno msg)].
Proof.
  intros Hne. unfold Original.server_emits, Original.binding, Net.server_deliver.
  cbn [Original.p_server Net.handlers Net.bind_state Net.server_event_name].
  rewrite emit_error_listening.
  cbn [mbind option_bind foldl Original.call Original.p_deferred Original.p_inUse].
  unfold Original.run_on_error.
  rewrite bool_decide_eq_false_2 by (cbn; congruence).
  reflexivity.
Qed.

Lemma original_bound port :
  Original.server_emits Net.srv_listening (Original.binding port)
  = Some Original.closing.
Proof. vm_compute. reflexivity. Qed.

Lemma original_released :
  (λ p, (Original.p_deferred p, Net.bind_state (Original.p_server p))) <$>
    Original.server_emits Net.srv_close Original.closing
  = Some ([Resolve false], Net.Released).
Proof. vm_compute. reflexivity. Qed.

Lemma original_accepts_iff port :
  Original.accepts port = true ↔ Is2.port port = true ∧ port ≠ VInt 0.
Proof.
  unfold Original.accepts, Is2.positiveInt, Original.above_range, Is2.port.
  destruct port as [| |b|z|sh|str]; cbn; try (split; [done|by intros [? _]]).
  rewrite andb_true_iff, negb_true_iff, bool_decide_eq_false, !bool_decide_eq_true.
  split.
  - intros [Hpos Hle]. split; [lia|]. intros [= ->]. lia.
  - intros [Hrange Hne]. split; [|lia].
    destruct (decide (z = 0%Z)) as [->|]; [done|lia].
Qed.

(** C8, amended.  The bind-based probe, on a port its own validation
    accepts: a bind that fails with EADDRINUSE reports in use; a bind
    that succeeds makes the probe close the server, nothing is
    reported while the server is closing, and free is reported when
    ['close'] arrives; any other bind failure rejects with that
    error.  The validation of [Interval.check] accepts every integer
    in 0..65535; that of [Original.check] accepts these except 0. *)
Theorem bind_probe_outcomes (port : val) :
  (Is2.port port = true →
     let p := Interval.check port in
     promise (Interval.p_deferred p) = Pending
     ∧ (∀ msg, ∃ p', Interval.server_emits (Net.srv_error "EADDRINUSE" msg) p = Some p'
                     ∧ promise (Interval.p_deferred p') = Fulfilled true)
     ∧ (∀ errno msg, errno ≠ "EADDRINUSE" →
          ∃ p', Interval.server_emits (Net.srv_error errno msg) p = Some p'
                ∧ promise (Interval.p_deferred p') = Rejected (system_error errno msg))
     ∧ (∃ p1 p2,
          Interval.server_emits Net.srv_listening p = Some p1
          ∧ Net.bind_state (Interval.p_server p1) = Net.Closing
          ∧ promise (Interval.p_deferred p1) = Pending
          ∧ Interval.server_emits Net.srv_close p1 = Some p2
          ∧ Net.bind_state (Interval.p_server p2) = Net.Released
          ∧ promise (Interval.p_deferred p2) = Fulfilled false))
  ∧
  (Original.accepts port = true →
     let p := Original.check port in
     promise (Original.p_deferred p) = Pending
     ∧ (∀ msg, ∃ p', Original.server_emits (Net.srv_error "EADDRINUSE" msg) p = Some p'
                     ∧ promise (Original.p_deferred p') = Fulfilled true)
     ∧ (∀ errno msg, errno ≠ "EADDRINUSE" →
          ∃ p', Original.server_emits (Net.srv_error errno msg) p = Some p'
                ∧ promise (Original.p_deferred p') = Rejected (system_error errno msg))
     ∧ (∃ p1 p2,
          Original.server_emits Net.srv_listening p = Some p1
          ∧ Net.bind_state (Original.p_server p1) = Net.Closing
          ∧ promise (Original.p_deferred p1) = Pending
          ∧ Original.server_emits Net.srv_close p1 = Some p2
          ∧ Net.bind_state (Original.p_server p2) = Net.Released
          ∧ promise (Original.p_deferred p2) = Fulfilled false))
  ∧
  (Original.accepts port = true ↔ Is2.port port = true ∧ port ≠ VInt 0).
Proof.
  split; [|split; [|apply original_accepts_iff]].
  - intros Hp. cbv zeta. rewrite (interval_check_valid _ Hp).
    split; [done|]. split; [|split].
    + intros msg. rewrite interval_in_use. eauto.
    + intros errno msg Hne. rewrite interval_bind_fails by done. eauto.
    + eexists _, _. rewrite interval_bound, interval_released. done.
  - intros Hp. cbv zeta. rewrite (original_check_valid _ Hp).
    split; [done|]. split; [|split].
    + intros msg. pose proof (original_in_use port msg) as H.
      destruct (Original.server_emits _ _) as [p'|]; [|done].
      injection H as H. exists p'. by rewrite H.
    + intros errno msg Hne. pose proof (original_bind_fails port errno msg Hne) as H.
      destruct (Original.server_emits _ _) as [p'|]; [|done].
      injection H as H. exists p'. by rewrite H.
    + pose proof original_released as H.
      destruct (Original.server_emits Net.srv_close _) as [p2|] eqn:H2; [|done].
      injection H as Hd Hb.
      exists Original.closing, p2. rewrite original_bound, Hd, Hb. done.
Qed.

End BindProbes.


(** ** The interval-driven sessions *)

Section IntervalPolling.
Import Interval.

(** The deadline callback of [waitUntilFree] only sets [done]. *)
Lemma f_deadline_sets_done s h ts s' :
  Timers.fire h (f_timers s) = Some (set_done, ts) →
  f_step (f_timer_fires h) s = Some s' →
  f_done s' = true ∧ f_deferred s' = f_deferred s.
Proof.
  intros Hfire Hstep. unfold f_step in Hstep. rewrite Hfire in Hstep.
  cbn [mbind option_bind] in Hstep. by injection Hstep as <-.
Qed.

(** The tick that follows makes the [reject] call. *)
Lemma f_tick_after_done s h ts s' :
  Timers.fire h (f_timers s) = Some (tick, ts) → f_done s = true →
  f_step (f_timer_fires h) s = Some s' →
  f_deferred s' =
    f_deferred s ++
    [Reject (new_Error ("waitUntilFree: timeout after "
                        +:+ to_string (f_timeOutMs s) +:+ " ms."))].
Proof.
  intros Hfire Hdone Hstep. unfold f_step in Hstep. rewrite Hfire in Hstep.
  cbn [mbind option_bind] in Hstep. injection Hstep as <-.
  destruct s as [port rt tt d done tid iv srv tms]. cbn in Hdone. subst done.
  unfold f_tick. cbn [f_with_timers f_done]. by destruct iv.
Qed.

(** The same two facts for [waitUntilUsed]. *)
Lemma u_deadline_sets_done s h ts s' :
  Timers.fire h (u_timers s) = Some (set_done, ts) →
  u_step (u_timer_fires h) s = Some (Normal s') →
  u_done s' = true ∧ u_deferred s' = u_deferred s.
Proof.
  intros Hfire Hstep. unfold u_step in Hstep. rewrite Hfire in Hstep.
  cbn [mbind option_bind] in Hstep. by injection Hstep as <-.
Qed.

Lemma u_cleanUp_None_deferred s : u_deferred (u_cleanUp None s) = u_deferred s.
Proof. by destruct s as [? ? ? ? ? [?|] [?|] ? ?]. Qed.

Lemma u_tick_after_done s h ts s' :
  Timers.fire h (u_timers s) = Some (tick, ts) → u_done s = true →
  u_step (u_timer_fires h) s = Some (Normal s') →
  u_deferred s' =
    u_deferred s ++ [Reject (new_Error "waitUntilListening: timeout.")].
Proof.
  intros Hfire Hdone Hstep. unfold u_step in Hstep. rewrite Hfire in Hstep.
  cbn [mbind option_bind] in Hstep. injection Hstep as Hstep.
  unfold u_tick in Hstep.
  replace (u_done (u_with_timers ts s)) with true in Hstep by done.
  destruct (Net.connect _ _ _) as [c|e]; cbn [cbind] in Hstep; [|discriminate].
  injection Hstep as <-. cbn [u_with_clients u_with_deferred u_deferred].
  by rewrite u_cleanUp_None_deferred.
Qed.

Lemma u_tick_opens_socket s :
  Is2.port (u_port s) = true →
  ∃ s', u_tick s = Normal s' ∧ u_clients s' = u_clients s ++ [fresh_client (u_port s)].
Proof.
  intros Hp. destruct s as [port rt tt d done tid iv tms cs]. cbn in Hp.
  unfold u_tick, Net.connect, Net.legal_target.
  destruct done, iv, tid; cbn; rewrite Hp; cbn; eexists; (split; [reflexivity|]); done.
Qed.

End IntervalPolling.


(** ** The exported operations of the current module *)

Section HostAwareOperations.
Import HostAware.
Variable host_syntax : string → bool.

Lemma check_invalid port host :
  Is2.port port = false →
  check host_syntax port host
  = Normal {| p_deferred := [Reject (invalid_port port)];
              p_inUse := true; p_client := None |}.
Proof. intros Hp. unfold check. by rewrite Hp. Qed.

Lemma waitUntilFreeOnHost_invalid port host r t :
  Is2.port port = false →
  waitUntilFreeOnHost host_syntax port host r t
  = Normal (mk_session UntilFree port host r t [Reject (invalid_port port)]
              false None None Timers.none []).
Proof. intros Hp. unfold waitUntilFreeOnHost. by rewrite Hp. Qed.

Lemma waitUntilUsedOnHost_invalid port host r t :
  Is2.port port = false →
  waitUntilUsedOnHost host_syntax port host r t
  = Normal (mk_session UntilUsed port host r t [Reject (invalid_port port)]
              false None None Timers.none []).
Proof. intros Hp. unfold waitUntilUsedOnHost. by rewrite Hp. Qed.

(** The session a valid [waitUntilFreeOnHost] call returns. *)
Lemma waitUntilFreeOnHost_valid port host r t :
  Is2.port port = true →
  waitUntilFreeOnHost host_syntax port host r t
  = Normal (mk_session UntilFree port (host_or_default host_syntax host) r
              (if Is2.positiveInt t then t else RETRYTIME)
              [] false None (Some 0)
              {| Timers.armed :=
                   {[0 := Timers.mk_timer false timeoutFunc
                            (if Is2.positiveInt t then t else RETRYTIME)]};
                 Timers.fresh := 1 |}
              [connecting host_syntax port (host_or_default host_syntax host)]).
Proof.
  intros Hp. unfold waitUntilFreeOnHost. rewrite Hp. cbn [negb].
  fold (host_or_default host_syntax host).
  destruct (host_or_default_string host_syntax host) as [h Hh].
  unfold doCheck, Timers.setTimeout, Timers.arm, Timers.none.
  cbn [Timers.fresh Timers.armed s_port s_host].
  rewrite check_valid by done. cbn [cbind with_checks].
  destruct (Is2.positiveInt t) eqn:Ht; cbn [negb]; [by rewrite Ht|].
  reflexivity.
Qed.

Lemma waitUntilUsedOnHost_valid port host r t :
  Is2.port port = true →
  waitUntilUsedOnHost host_syntax port host r t
  = Normal (mk_session UntilUsed port (host_or_default host_syntax host)
              (if Is2.positiveInt r then r else RETRYTIME)
              (if Is2.positiveInt t then t else TIMEOUT)
              [] false None (Some 0)
              {| Timers.armed :=
                   {[0 := Timers.mk_timer false timeoutFunc
                            (if Is2.positiveInt t then t else TIMEOUT)]};
                 Timers.fresh := 1 |}
              [connecting host_syntax port (host_or_default host_syntax host)]).
Proof.
  intros Hp. unfold waitUntilUsedOnHost. rewrite Hp. cbn [negb].
  fold (host_or_default host_syntax host).
  destruct (host_or_default_string host_syntax host) as [h Hh].
  unfold doCheck, Timers.setTimeout, Timers.arm, Timers.none.
  cbn [Timers.fresh Timers.armed s_port s_host].
  rewrite check_valid by done. cbn [cbind with_checks].
  by destruct (Is2.positiveInt t), (Is2.positiveInt r).
Qed.

Lemma loopback_kept : host_or_default host_syntax (VStr "127.0.0.1") = VStr "127.0.0.1".
Proof.
  unfold host_or_default, Is2.hostAddress. by destruct (host_syntax "127.0.0.1").
Qed.

End HostAwareOperations.


Section HostAwareClaims.
Import HostAware.
Variable host_syntax : string → bool.

(** *** The probe *)

(** C4. A [check] on a valid port is pending until the network
    answers; a successful connection fulfils its promise with [true]
    (in use), a refused one with [false] (free), and any other
    connection error rejects it with that very error. *)
Theorem check_reports_connection_outcome (port host : val) :
  Is2.port port = true →
  ∃ p, check host_syntax port host = Normal p
    ∧ promise (p_deferred p) = Pending
    ∧ (∃ p', socket_emits Net.connect_ev p = Some p'
             ∧ promise (p_deferred p') = Fulfilled true)
    ∧ (∀ msg, ∃ p', socket_emits (Net.error_ev "ECONNREFUSED" msg) p = Some p'
                    ∧ promise (p_deferred p') = Fulfilled false)
    ∧ (∀ errno msg, errno ≠ "ECONNREFUSED" →
         ∃ p', socket_emits (Net.error_ev errno msg) p = Some p'
               ∧ promise (p_deferred p') = Rejected (system_error errno msg)).
Proof.
  intros Hp. exists (connecting host_syntax port host).
  split; [by apply check_valid|]. split; [done|]. split; [|split].
  - rewrite connect_succeeds. eauto.
  - intros msg. rewrite connect_refused. eauto.
  - intros errno msg Hne. rewrite connect_fails by done. eauto.
Qed.

(** C7, as the code has it.  Whatever the outcome, the probe has no
    listener left once its promise is settled; after a refused or
    failed connection the socket is closed (Node destroys it), but
    after a successful connection the socket is still open: [cleanUp]
    only unsubscribes, nothing ends the connection. *)
Theorem check_leaves_connected_socket_open :
  ∃ p p',
    check host_syntax (VInt 44202) (VStr "127.0.0.1") = Normal p
    ∧ socket_emits Net.connect_ev p = Some p'
    ∧ promise (p_deferred p') = Fulfilled true
    ∧ p_client p' = Some {| Net.conn_state := Net.Open; Net.listeners := ∅ |}
    ∧ (∀ errno msg p'',
         socket_emits (Net.error_ev errno msg) p = Some p'' →
         p_client p'' = Some {| Net.conn_state := Net.Closed; Net.listeners := ∅ |}).
Proof.
  eexists _, _. split; [by apply check_valid|].
  rewrite connect_succeeds. do 3 (split; [done|]).
  intros errno msg p''. destruct (decide (errno = "ECONNREFUSED")) as [->|Hne].
  - rewrite connect_refused. by intros [= <-].
  - rewrite connect_fails by done. by intros [= <-].
Qed.

(** *** Calls never throw *)

Lemma invoke_invalid c s :
  invoke host_syntax c = Normal s → Is2.port (s_port s) = false →
  s_deferred s = [Reject (invalid_port (s_port s))]
  ∧ s_timers s = Timers.none ∧ s_checks s = [].
Proof.
  destruct c as [p r t|p h r t|p r t|p h r t]; cbn [invoke];
    unfold waitUntilFree, waitUntilUsed; intros Hs Hp;
    destruct (Is2.port p) eqn:Hport.
  all: first
    [ rewrite waitUntilFreeOnHost_valid in Hs by done
    | rewrite waitUntilUsedOnHost_valid in Hs by done
    | rewrite waitUntilFreeOnHost_invalid in Hs by done
    | rewrite waitUntilUsedOnHost_invalid in Hs by done ].
  all: injection Hs as <-; cbn in Hp |- *; first [congruence | done].
Qed.

(** C10. No exported operation throws: [check] and the four wait
    functions return their promise for every argument of every type,
    a refused port shows only as the rejection of that promise, and
    no callback the runtime later runs for a session throws
    either. *)
Theorem exported_operations_never_throw :
  (∀ port host,
     ∃ p, check host_syntax port host = Normal p
          ∧ (Is2.port port = false →
             promise (p_deferred p) = Rejected (invalid_port port)))
  ∧ (∀ c,
       ∃ s, invoke host_syntax c = Normal s
            ∧ (Is2.port (s_port s) = false →
               promise (s_deferred s) = Rejected (invalid_port (s_port s))))
  ∧ (∀ s ev r,
       reachable host_syntax s → step host_syntax ev s = Some r →
       ∃ s', r = Normal s').
Proof.
  split; [|split].
  - intros port host. destruct (Is2.port port) eqn:Hp.
    + rewrite check_valid by done. eexists; split; [reflexivity|done].
    + rewrite check_invalid by done. eexists; split; [reflexivity|done].
  - intros c. destruct (inv_invoke host_syntax c) as (s & Hs & _).
    exists s. split; [done|]. intros Hp.
    destruct (invoke_invalid c s Hs Hp) as (-> & _). done.
  - intros s ev r Hreach%reachable_inv Hstep.
    destruct (inv_step host_syntax s ev r Hreach Hstep) as (s' & -> & _). eauto.
Qed.

(** *** Defaults *)

(** C3, as the code has it.  [waitUntilUsedOnHost] replaces each of
    the two arguments by its own default.  [waitUntilFreeOnHost]
    never touches the retry interval and replaces a missing timeout
    by the retry default; the interval-driven [waitUntilFree] never
    touches the retry interval either, and the interval-driven
    [waitUntilUsed] overwrites the timeout when the retry interval is
    missing and leaves the retry interval as it was. *)
Theorem defaults_as_coded (port host r t : val) :
  Is2.port port = true →
  (∃ s, waitUntilUsedOnHost host_syntax port host r t = Normal s
        ∧ s_retryTimeMs s = (if Is2.positiveInt r then r else RETRYTIME)
        ∧ s_timeOutMs s = (if Is2.positiveInt t then t else TIMEOUT))
  ∧ (∃ s, waitUntilFreeOnHost host_syntax port host r t = Normal s
          ∧ s_retryTimeMs s = r
          ∧ s_timeOutMs s = (if Is2.positiveInt t then t else RETRYTIME))
  ∧ (Interval.f_retryTimeMs (Interval.waitUntilFree port r t) = r
     ∧ Interval.f_timeOutMs (Interval.waitUntilFree port r t)
       = (if Is2.positiveInt t then t else VInt 100))
  ∧ (Interval.u_retryTimeMs (Interval.waitUntilUsed port r t) = r
     ∧ Interval.u_timeOutMs (Interval.waitUntilUsed port r t)
       = (if Is2.positiveInt r
          then (if Is2.positiveInt t then t else VInt 300)
          else VInt 100)).
Proof.
  intros Hp. split; [|split; [|split]].
  - rewrite waitUntilUsedOnHost_valid by done. eauto.
  - rewrite waitUntilFreeOnHost_valid by done. eauto.
  - unfold Interval.waitUntilFree. rewrite Hp.
    by destruct (Is2.positiveInt t) eqn:Ht; cbn; rewrite ?Ht.
  - unfold Interval.waitUntilUsed. rewrite Hp.
    destruct (Is2.positiveInt r), (Is2.positiveInt t) eqn:Ht;
      cbn; rewrite ?Ht; cbn; rewrite ?Ht; done.
Qed.
End HostAwareClaims.

Lemma check_reports_connection_outcome_witness :
  ∃ p, HostAware.check (λ _, true) (VInt 44202) (VStr "127.0.0.1") = Normal p
       ∧ promise (HostAware.p_deferred p) = Pending.
Proof.
  destruct (check_reports_connection_outcome (λ _, true) (VInt 44202) (VStr "127.0.0.1"))
    as (p & Hp & Hpending & _); [reflexivity|].
  exists p. split; [exact Hp | exact Hpending].
Defined.

Lemma defaults_as_coded_witness :
  ∃ s, HostAware.waitUntilFreeOnHost (λ _, true)
         (VInt 44205) (VStr "127.0.0.1") VUndefined VUndefined = Normal s
       ∧ HostAware.s_retryTimeMs s = VUndefined
       ∧ HostAware.s_timeOutMs s = HostAware.RETRYTIME.
Proof.
  destruct (defaults_as_coded (λ _, true)
              (VInt 44205) (VStr "127.0.0.1") VUndefined VUndefined)
    as (_ & (s & Hs & Hr & Ht) & _); [reflexivity|].
  exists s. split; [exact Hs|]. split; [exact Hr | exact Ht].
Defined.


Section CorrectedClaims.
Import HostAware.
Variable host_syntax : string → bool.

(** *** The deadline *)

Lemma timeout_is_not_invalid_port v : new_Error "timeout" ≠ invalid_port v.
Proof. unfold invalid_port, new_Error. cbn. intros [=]. Qed.

Lemma timeout_is_not_system_error errno msg :
  new_Error "timeout" ≠ system_error errno msg.
Proof. intros [=]. Qed.

(** C2, amended.  In the current module the firing of the deadline
    timer itself sets [timedout], leaves no timer armed (a pending
    retry is cancelled) and rejects with [Error('timeout')], an error
    that is neither an invalid-port error nor a system error of a
    probe.  In the interval-driven predecessor the deadline callback
    only sets [done]; the rejection is made by the next interval
    tick. *)
Theorem deadline_settles_current_sessions :
  (∀ s, reachable host_syntax s → s_deferred s = [] →
     ∃ h s',
       s_timeoutId s = Some h
       ∧ Timers.armed (s_timers s) !! h = Some (deadline_timer s)
       ∧ step host_syntax (timer_fires h) s = Some (Normal s')
       ∧ s_timedout s' = true
       ∧ Timers.armed (s_timers s') = ∅
       ∧ s_deferred s' = [Reject (new_Error "timeout")])
  ∧ (∀ v, new_Error "timeout" ≠ invalid_port v)
  ∧ (∀ errno msg, new_Error "timeout" ≠ system_error errno msg)
  ∧ (∀ s h ts s',
       Timers.fire h (Interval.f_timers s) = Some (Interval.set_done, ts) →
       Interval.f_step (Interval.f_timer_fires h) s = Some s' →
       Interval.f_done s' = true ∧ Interval.f_deferred s' = Interval.f_deferred s)
  ∧ (∀ s h ts s',
       Timers.fire h (Interval.f_timers s) = Some (Interval.tick, ts) →
       Interval.f_done s = true →
       Interval.f_step (Interval.f_timer_fires h) s = Some s' →
       Interval.f_deferred s' =
         Interval.f_deferred s ++
         [Reject (new_Error ("waitUntilFree: timeout after "
                             +:+ to_string (Interval.f_timeOutMs s) +:+ " ms."))])
  ∧ (∀ s h ts s',
       Timers.fire h (Interval.u_timers s) = Some (Interval.set_done, ts) →
       Interval.u_step (Interval.u_timer_fires h) s = Some (Normal s') →
       Interval.u_done s' = true ∧ Interval.u_deferred s' = Interval.u_deferred s)
  ∧ (∀ s h ts s',
       Timers.fire h (Interval.u_timers s) = Some (Interval.tick, ts) →
       Interval.u_done s = true →
       Interval.u_step (Interval.u_timer_fires h) s = Some (Normal s') →
       Interval.u_deferred s' =
         Interval.u_deferred s ++
         [Reject (new_Error "waitUntilListening: timeout.")]).
Proof.
  split; [|split; [|split; [|split; [|split; [|split]]]]].
  - intros s Hinv%reachable_inv Hrun%running_unsettled; [|done].
    destruct (deadline_fires host_syntax s Hrun) as (ht & s' & H). eauto.
  - apply timeout_is_not_invalid_port.
  - apply timeout_is_not_system_error.
  - apply f_deadline_sets_done.
  - apply f_tick_after_done.
  - apply u_deadline_sets_done.
  - apply u_tick_after_done.
Qed.

(** *** One probe at a time *)

(** C6, amended.  In the current module a session never has more
    than one [check] outstanding, and an event that issues one finds
    none outstanding.  In the interval-driven predecessor every tick
    of [waitUntilUsed] opens a new socket and connects it, whether or
    not the earlier ones have heard from the network. *)
Theorem probes_are_sequential_in_current_sessions :
  (∀ s, reachable host_syntax s → length (s_checks s) ≤ 1)
  ∧ (∀ s ev s',
       reachable host_syntax s → step host_syntax ev s = Some (Normal s') →
       length (s_checks s) < length (s_checks s') → s_checks s = [])
  ∧ (∀ s, Is2.port (Interval.u_port s) = true →
       ∃ s', Interval.u_tick s = Normal s'
             ∧ Interval.u_outstanding s' = S (Interval.u_outstanding s)).
Proof.
  split; [|split].
  - intros s Hinv%reachable_inv. by apply at_most_one_check.
  - intros s ev s' Hreach Hstep Hlt.
    assert (length (s_checks s') ≤ 1) as Hle.
    { apply at_most_one_check, (reachable_inv host_syntax). by eapply reach_step. }
    destruct (s_checks s); [done|cbn in Hlt; lia].
  - intros s Hp. destruct (u_tick_opens_socket s Hp) as (s' & Hs' & Hcs).
    exists s'. split; [done|].
    unfold Interval.u_outstanding. rewrite Hcs, List.filter_app, length_app.
    cbn. lia.
Qed.

(** *** The no-host wrappers *)

Lemma then_fulfilled_target inUse s :
  s_port (then_fulfilled inUse s) = s_port s
  ∧ s_host (then_fulfilled inUse s) = s_host s.
Proof. by destruct s as [[] ? ? ? ? ? [] [?|] [?|] ? ?], inUse. Qed.

Lemma then_rejected_target err s :
  s_port (then_rejected err s) = s_port s ∧ s_host (then_rejected err s) = s_host s.
Proof. by destruct s as [? ? ? ? ? ? [] [?|] [?|] ? ?]. Qed.

Lemma run_timeoutFunc_target s :
  s_port (run_timeoutFunc s) = s_port s ∧ s_host (run_timeoutFunc s) = s_host s.
Proof. by destruct s as [? ? ? ? ? ? ? [?|] [?|] ? ?]. Qed.

Lemma doCheck_pushes_check s s' :
  doCheck host_syntax s = Normal s' →
  ∃ p, check host_syntax (s_port s) (s_host s) = Normal p
       ∧ s' = with_checks (s_checks s ++ [p]) s.
Proof.
  unfold doCheck. destruct (check _ _ _) as [p|e]; cbn [cbind]; [|done].
  intros [= <-]. eauto.
Qed.

Lemma step_target s ev s' :
  step host_syntax ev s = Some (Normal s') →
  s_port s' = s_port s ∧ s_host s' = s_host s.
Proof.
  destruct ev as [h | i ev | i]; unfold step.
  - destruct (Timers.fire h (s_timers s)) as [[[] ts]|]; cbn [mbind option_bind];
      [| |done].
    + intros [= <-]. by rewrite !(proj1 (run_timeoutFunc_target _)),
                                !(proj2 (run_timeoutFunc_target _)).
    + intros [= (p & _ & ->)%doCheck_pushes_check]. done.
  - destruct (s_checks s !! i) as [p|]; cbn [mbind option_bind]; [|done].
    destruct (socket_emits ev p); cbn [mbind option_bind]; [|done].
    by intros [= <-].
  - destruct (s_checks s !! i) as [p|]; cbn [mbind option_bind]; [|done].
    destruct (promise (p_deferred p)); [done|..]; intros [= <-].
    + by rewrite !(proj1 (then_fulfilled_target _ _)),
                 !(proj2 (then_fulfilled_target _ _)).
    + by rewrite !(proj1 (then_rejected_target _ _)),
                 !(proj2 (then_rejected_target _ _)).
Qed.

(** C9, amended.  The no-host variants are the host-aware functions
    called with the host ['127.0.0.1']: the session they return has
    that host and one connect-based [check] to it outstanding; every
    later probe of a session is [check] on the session's port and
    host, and no event changes these.  The bind-based probe is not
    used. *)
Theorem no_host_variants_use_the_connect_probe (port r t : val) :
  waitUntilFree host_syntax port r t
    = waitUntilFreeOnHost host_syntax port (VStr "127.0.0.1") r t
  ∧ waitUntilUsed host_syntax port r t
    = waitUntilUsedOnHost host_syntax port (VStr "127.0.0.1") r t
  ∧ (Is2.port port = true →
     ∃ s p, waitUntilFree host_syntax port r t = Normal s
            ∧ s_port s = port ∧ s_host s = VStr "127.0.0.1"
            ∧ s_checks s = [p]
            ∧ connect_request p = Some (connect_to port (VStr "127.0.0.1")))
  ∧ (Is2.port port = true →
     ∃ s p, waitUntilUsed host_syntax port r t = Normal s
            ∧ s_port s = port ∧ s_host s = VStr "127.0.0.1"
            ∧ s_checks s = [p]
            ∧ connect_request p = Some (connect_to port (VStr "127.0.0.1")))
  ∧ (∀ s s', doCheck host_syntax s = Normal s' →
       ∃ p, check host_syntax (s_port s) (s_host s) = Normal p
            ∧ s_checks s' = s_checks s ++ [p])
  ∧ (∀ s ev s', step host_syntax ev s = Some (Normal s') →
       s_port s' = s_port s ∧ s_host s' = s_host s).
Proof.
  split; [done|]. split; [done|]. split; [|split; [|split]].
  - intros Hp. unfold waitUntilFree.
    rewrite waitUntilFreeOnHost_valid, loopback_kept by done.
    eexists _, _. do 4 (split; [reflexivity|]).
    unfold connect_request, connecting. cbn. by rewrite loopback_kept.
  - intros Hp. unfold waitUntilUsed.
    rewrite waitUntilUsedOnHost_valid, loopback_kept by done.
    eexists _, _. do 4 (split; [reflexivity|]).
    unfold connect_request, connecting. cbn. by rewrite loopback_kept.
  - intros s s' (p & Hp & ->)%doCheck_pushes_check. eauto.
  - apply step_target.
Qed.

(** *** Validation *)

(** C5, as the code has it.  In the current module a refused port is
    reported with the value in the message and nothing else happens:
    [check] creates no socket, the wait functions arm no timer and
    issue no probe.  The bind-based [check] of the two earlier
    releases also reports the value but does not return: it goes on
    to create a server and to call [listen] on the refused port. *)
Theorem bind_check_listens_on_refused_port :
  (∀ port host, Is2.port port = false →
     check host_syntax port host
     = Normal {| p_deferred := [Reject (new_Error ("invalid port: " +:+ inspect port))];
                 p_inUse := true; p_client := None |})
  ∧ (∀ c s, invoke host_syntax c = Normal s → Is2.port (s_port s) = false →
       s_deferred s = [Reject (new_Error ("invalid port: " +:+ inspect (s_port s)))]
       ∧ s_timers s = Timers.none ∧ s_checks s = [])
  ∧ (∀ port, Is2.port port = false →
       promise (Interval.p_deferred (Interval.check port))
         = Rejected (new_Error ("Invalid port: " +:+ inspect port))
       ∧ Net.bind_state (Interval.p_server (Interval.check port)) = Net.Binding port)
  ∧ (∀ port, Original.accepts port = false →
       promise (Original.p_deferred (Original.check port))
         = Rejected (new_Error ("Invalid port: " +:+ to_string port))
       ∧ Net.bind_state (Original.p_server (Original.check port)) = Net.Binding port)
  ∧ (promise (Original.p_deferred (Original.check (VInt (-20))))
       = Rejected (new_Error "Invalid port: -20")
     ∧ Net.bind_state (Original.p_server (Original.check (VInt (-20))))
       = Net.Binding (VInt (-20))).
Proof.
  split; [|split; [|split; [|split]]].
  - apply check_invalid.
  - apply invoke_invalid.
  - intros port Hp. unfold Interval.check. by rewrite Hp.
  - intros port Hp. unfold Original.accepts in Hp. unfold Original.check.
    destruct (Is2.positiveInt port), (Original.above_range port); done.
  - done.
Qed.
End CorrectedClaims.

(** *** Concrete runs *)

(** C2, refuted as stated: in [Interval.waitUntilFree] on port 44203
    with a 1000 ms timeout, the deadline timer (handle 0) fires and the
    promise is still pending, with the interval (handle 1) still
    armed. *)
Lemma interval_deadline_does_not_settle :
  Interval.f_timeoutId (Interval.waitUntilFree (VInt 44203) (VInt 500) (VInt 1000))
    = Some 0
  ∧ ∃ s', Interval.f_step (Interval.f_timer_fires 0)
            (Interval.waitUntilFree (VInt 44203) (VInt 500) (VInt 1000)) = Some s'
          ∧ promise (Interval.f_deferred s') = Pending
          ∧ Interval.f_done s' = true
          ∧ Timers.callback <$> Timers.armed (Interval.f_timers s') !! 1
            = Some Interval.tick.
Proof.
  split; [reflexivity|]. eexists. split; [vm_compute; reflexivity|].
  repeat split; vm_compute; reflexivity.
Qed.

(** C6, refuted as stated: in [Interval.waitUntilUsed] on port 44204,
    two ticks of the interval (handle 1) with no answer from the
    network in between leave two probes outstanding. *)
Lemma interval_probes_accumulate :
  ∃ s, Interval.u_run [Interval.u_timer_fires 1; Interval.u_timer_fires 1]
         (Interval.waitUntilUsed (VInt 44204) (VInt 500) (VInt 4000)) = Some s
       ∧ Interval.u_outstanding s = 2.
Proof.
  eexists. split; [vm_compute; reflexivity|]. vm_compute. reflexivity.
Qed.

(** C9, refuted as stated: the probe [waitUntilFree] issues on port
    44205 is a connection to 127.0.0.1, where the bind-based probe
    would bind the port. *)
Lemma waitUntilFree_connects :
  ∃ s p, HostAware.waitUntilFree (λ _, true) (VInt 44205) (VInt 500) (VInt 4000)
         = Normal s
         ∧ HostAware.s_checks s = [p]
         ∧ HostAware.connect_request p = Some (connect_to (VInt 44205) (VStr "127.0.0.1"))
         ∧ Interval.bind_request (Interval.check (VInt 44205)) = Some (bind_to (VInt 44205))
         ∧ HostAware.connect_request p ≠ Interval.bind_request (Interval.check (VInt 44205)).
Proof.
  eexists _, _. split; [vm_compute; reflexivity|].
  split; [reflexivity|]. split; [reflexivity|]. split; [reflexivity|].
  vm_compute. discriminate.
Qed.

(** C8, refuted as stated: port 0 is an integer in 0..65535, the bind
    of [Original.check] on it succeeds and the server is closed, yet
    the promise is rejected, because the guard of the first release
    refuses 0 and the later [resolve] is ignored. *)
Lemma original_check_refuses_port_zero :
  Is2.port (VInt 0) = true
  ∧ ∃ p1 p2,
      Original.server_emits Net.srv_listening (Original.check (VInt 0)) = Some p1
      ∧ Original.server_emits Net.srv_close p1 = Some p2
      ∧ Net.bind_state (Original.p_server p2) = Net.Released
      ∧ Original.p_deferred p2
        = [Reject (new_Error "Invalid port: 0"); Resolve false]
      ∧ promise (Original.p_deferred p2) = Rejected (new_Error "Invalid port: 0").
Proof.
  split; [reflexivity|]. eexists _, _.
  split; [vm_compute; reflexivity|]. split; [vm_compute; reflexivity|].
  repeat split; vm_compute; reflexivity.
Qed.


Lemma bind_probe_outcomes_witness :
  promise (Interval.p_deferred (Interval.check (VInt 44201))) = Pending
  ∧ promise (Original.p_deferred (Original.check (VInt 44201))) = Pending.
Proof.
  destruct (bind_probe_outcomes (VInt 44201)) as (Hinterval & Horiginal & _).
  split.
  - exact (proj1 (Hinterval eq_refl)).
  - exact (proj1 (Horiginal eq_refl)).
Defined.


(** * Further properties *)

(** ** The current module: how a probe result is handled *)

Section ResultHandling.
Import HostAware.
Variable host_syntax : string → bool.

Ltac map_solve :=
  apply map_eq; intros ?k;
  repeat (rewrite ?lookup_delete, ?lookup_insert, ?lookup_singleton, ?lookup_empty;
          repeat case_decide; subst; try done).

Ltac open_session :=
  cbv beta iota zeta delta
    [inv running settled run_timeoutFunc cleanUp then_fulfilled
     free_fulfilled used_fulfilled then_rejected schedule_retry
     with_deferred with_timedout with_retryId with_timers with_checks
     Timers.clear Timers.setTimeout Timers.arm deadline_timer retry_timer
     s_op s_port s_host s_retryTimeMs s_timeOutMs s_deferred s_timedout
     s_retryId s_timeoutId s_timers s_checks Timers.armed Timers.fresh
     Promise.reject Promise.resolve app wanted negb].

(** A running session with a probe outstanding, spelled out. *)
Lemma probing_fields s i p :
  running s → s_checks s !! i = Some p →
  i = 0 ∧ s_timedout s = false ∧ Is2.port (s_port s) = true
  ∧ (∃ hs, s_host s = VStr hs)
  ∧ ∃ ht, s_timeoutId s = Some ht ∧ ht < Timers.fresh (s_timers s)
          ∧ Timers.armed (s_timers s)
            = {[ht := Timers.mk_timer false timeoutFunc (s_timeOutMs s)]}
          ∧ s_checks s = [p].
Proof.
  intros (Hd & Hto & Hport & Hhost & ht & Htid & Hfresh & Hphase) Hp.
  destruct Hphase as [[Harmed Hlen] | (hr & _ & _ & _ & _ & Hnil)].
  - destruct (s_checks s) as [|p0 [|]] eqn:Hchecks; try discriminate Hlen.
    destruct i as [|i]; [|done]. injection Hp as ->.
    repeat (split; [done|]). exists ht. done.
  - rewrite Hnil in Hp. done.
Qed.

Ltac probing_session s i p Hinv Hd Hp :=
  destruct (probing_fields s i p (running_unsettled s Hinv Hd) Hp)
    as (-> & Hto & Hport & [hs Hhost] & ht & Htid & Hfresh & Harmed & Hchecks);
  destruct s as [op port host rt tt d to rid tid [armed nxt] checks];
  cbn in Hd, Hto, Hport, Hhost, Htid, Hfresh, Harmed, Hchecks;
  subst d to host tid armed checks; clear Hp.

(** X1. When the result delivered to a session that has not settled
    is the state it waits for (free for [waitUntilFreeOnHost], in use
    for [waitUntilUsedOnHost]), the session resolves, and it is left
    with no timer armed and no probe outstanding. *)
Theorem wanted_state_resolves s i p inUse :
  reachable host_syntax s → s_deferred s = [] →
  s_checks s !! i = Some p → promise (p_deferred p) = Fulfilled inUse →
  wanted (s_op s) inUse = true →
  ∃ s', step host_syntax (promise_settled i) s = Some (Normal s')
        ∧ s_deferred s' = [Resolve ()]
        ∧ Timers.armed (s_timers s') = ∅
        ∧ s_checks s' = [].
Proof.
  intros Hinv%reachable_inv Hd Hp Hres Hw.
  probing_session s i p Hinv Hd Hp.
  unfold step. cbn [s_checks lookup list_lookup mbind option_bind].
  rewrite Hres. eexists. split; [reflexivity|].
  cbn [s_op] in Hw.
  destruct op, inUse, rid; try discriminate Hw;
    open_session; repeat split; map_solve.
Qed.

(** X2. When the result is the other state, the session stays
    unsettled, keeps its deadline, and arms one retry timer with the
    delay [retryTimeMs]; when that timer fires the next [check] is
    issued, on the session's port and host, with the timers as they
    were before the retry was scheduled. *)
Theorem other_state_schedules_retry s i p inUse :
  reachable host_syntax s → s_deferred s = [] →
  s_checks s !! i = Some p → promise (p_deferred p) = Fulfilled inUse →
  wanted (s_op s) inUse = false →
  ∃ s' hr s'',
    step host_syntax (promise_settled i) s = Some (Normal s')
    ∧ s_deferred s' = [] ∧ s_checks s' = []
    ∧ s_retryId s' = Some hr
    ∧ Timers.armed (s_timers s')
      = <[hr := Timers.mk_timer false retry_doCheck (s_retryTimeMs s)]>
          (Timers.armed (s_timers s))
    ∧ Timers.armed (s_timers s) !! hr = None
    ∧ step host_syntax (timer_fires hr) s' = Some (Normal s'')
    ∧ s_deferred s'' = []
    ∧ s_checks s'' = [connecting host_syntax (s_port s) (s_host s)]
    ∧ Timers.armed (s_timers s'') = Timers.armed (s_timers s).
Proof.
  intros Hinv%reachable_inv Hd Hp Hres Hw.
  probing_session s i p Hinv Hd Hp.
  unfold step at 1. cbn [s_checks lookup list_lookup mbind option_bind].
  rewrite Hres. cbn [s_op] in Hw.
  assert (Hne : ht ≠ nxt) by lia.
  eexists _, nxt, _. split; [reflexivity|].
  destruct op, inUse; try discriminate Hw; open_session.
  all: do 4 (split; [reflexivity|]).
  all: split; [by rewrite lookup_singleton_ne|].
  all: unfold step, Timers.fire; cbn [s_timers Timers.armed];
       rewrite lookup_insert_eq; cbn [mbind option_bind Timers.callback Timers.repeat];
       unfold doCheck; cbn [with_timers s_port s_host];
       rewrite check_valid by done; cbn [cbind];
       (split; [reflexivity|]); open_session;
       repeat split; map_solve.
Qed.

(** X3. When the probe itself fails, the session rejects with that
    very error and is left with no timer armed and no probe
    outstanding: a probe error is never retried. *)
Theorem probe_error_rejects s i p err :
  reachable host_syntax s → s_deferred s = [] →
  s_checks s !! i = Some p → promise (p_deferred p) = Rejected err →
  ∃ s', step host_syntax (promise_settled i) s = Some (Normal s')
        ∧ s_deferred s' = [Reject err]
        ∧ Timers.armed (s_timers s') = ∅
        ∧ s_checks s' = [].
Proof.
  intros Hinv%reachable_inv Hd Hp Hres.
  probing_session s i p Hinv Hd Hp.
  unfold step. cbn [s_checks lookup list_lookup mbind option_bind].
  rewrite Hres. eexists. split; [reflexivity|].
  destruct rid; open_session; repeat split; map_solve.
Qed.

(** X4. A session that has settled holds no armed timer, and it has a
    probe outstanding only if the deadline settled it: the deadline
    does not abort the probe in flight. *)
Theorem settled_session_holds_no_timer s :
  reachable host_syntax s → s_deferred s ≠ [] →
  Timers.armed (s_timers s) = ∅
  ∧ (∀ h, step host_syntax (timer_fires h) s = None)
  ∧ (s_checks s = [] ∨ s_timedout s = true).
Proof.
  intros [(Hd & _)|(_ & Harmed & Hchecks)]%reachable_inv Hne; [done|].
  split; [done|]. split.
  - intros h. unfold step, Timers.fire. by rewrite Harmed, lookup_empty.
  - destruct Hchecks as [?|[? _]]; eauto.
Qed.
End ResultHandling.


Lemma wanted_state_resolves_witness :
  ∃ s0 s s',
    HostAware.invoke (λ _, true)
      (HostAware.call_waitUntilUsed (VInt 44204) (VInt 500) (VInt 4000)) = Normal s0
    ∧ HostAware.run (λ _, true) [HostAware.network 0 Net.connect_ev] s0 = Some s
    ∧ HostAware.step (λ _, true) (HostAware.promise_settled 0) s = Some (Normal s')
    ∧ HostAware.s_deferred s' = [Resolve ()].
Proof.
  assert (∃ s0 s p,
    HostAware.invoke (λ _, true)
      (HostAware.call_waitUntilUsed (VInt 44204) (VInt 500) (VInt 4000)) = Normal s0
    ∧ HostAware.run (λ _, true) [HostAware.network 0 Net.connect_ev] s0 = Some s
    ∧ HostAware.s_deferred s = []
    ∧ HostAware.s_checks s !! 0 = Some p
    ∧ promise (HostAware.p_deferred p) = Fulfilled true
    ∧ HostAware.wanted (HostAware.s_op s) true = true)
    as (s0 & s & p & Hinvoke & Hrun & Hd & Hp & Hres & Hw).
  { eexists _, _, _. split; [vm_compute; reflexivity|].
    split; [vm_compute; reflexivity|]. repeat split; reflexivity. }
  assert (HostAware.reachable (λ _, true) s) as Hreach.
  { refine (reachable_run (λ _, true) _ s0 s _ Hrun).
    exact (HostAware.reach_invoke _ _ _ Hinvoke). }
  destruct (wanted_state_resolves (λ _, true) s 0 p true Hreach Hd Hp Hres Hw)
    as (s' & Hstep & Hd' & _).
  exists s0, s, s'. split; [exact Hinvoke|]. split; [exact Hrun|].
  split; [exact Hstep | exact Hd'].
Defined.

Lemma other_state_schedules_retry_witness :
  ∃ s0 s s',
    HostAware.invoke (λ _, true)
      (HostAware.call_waitUntilUsed (VInt 44204) (VInt 500) (VInt 4000)) = Normal s0
    ∧ HostAware.run (λ _, true)
        [HostAware.network 0 (HostAware.answer false)] s0 = Some s
    ∧ HostAware.step (λ _, true) (HostAware.promise_settled 0) s = Some (Normal s')
    ∧ HostAware.s_deferred s' = [] ∧ HostAware.s_checks s' = [].
Proof.
  assert (∃ s0 s p,
    HostAware.invoke (λ _, true)
      (HostAware.call_waitUntilUsed (VInt 44204) (VInt 500) (VInt 4000)) = Normal s0
    ∧ HostAware.run (λ _, true)
        [HostAware.network 0 (HostAware.answer false)] s0 = Some s
    ∧ HostAware.s_deferred s = []
    ∧ HostAware.s_checks s !! 0 = Some p
    ∧ promise (HostAware.p_deferred p) = Fulfilled false
    ∧ HostAware.wanted (HostAware.s_op s) false = false)
    as (s0 & s & p & Hinvoke & Hrun & Hd & Hp & Hres & Hw).
  { eexists _, _, _. split; [vm_compute; reflexivity|].
    split; [vm_compute; reflexivity|]. repeat split; reflexivity. }
  assert (HostAware.reachable (λ _, true) s) as Hreach.
  { refine (reachable_run (λ _, true) _ s0 s _ Hrun).
    exact (HostAware.reach_invoke _ _ _ Hinvoke). }
  destruct (other_state_schedules_retry (λ _, true) s 0 p false Hreach Hd Hp Hres Hw)
    as (s' & hr & s'' & Hstep & Hd' & Hchecks & _).
  exists s0, s, s'. split; [exact Hinvoke|]. split; [exact Hrun|].
  split; [exact Hstep|]. split; [exact Hd' | exact Hchecks].
Defined.

Lemma probe_error_rejects_witness :
  ∃ s0 s s',
    HostAware.invoke (λ _, true)
      (HostAware.call_waitUntilFreeOnHost
         (VInt 44203) (VStr "some.host.com") (VInt 500) (VInt 4000)) = Normal s0
    ∧ HostAware.run (λ _, true)
        [HostAware.network 0 (Net.error_ev "EHOSTUNREACH" "connect EHOSTUNREACH")] s0
      = Some s
    ∧ HostAware.step (λ _, true) (HostAware.promise_settled 0) s = Some (Normal s')
    ∧ HostAware.s_deferred s'
      = [Reject (system_error "EHOSTUNREACH" "connect EHOSTUNREACH")].
Proof.
  assert (∃ s0 s p,
    HostAware.invoke (λ _, true)
      (HostAware.call_waitUntilFreeOnHost
         (VInt 44203) (VStr "some.host.com") (VInt 500) (VInt 4000)) = Normal s0
    ∧ HostAware.run (λ _, true)
        [HostAware.network 0 (Net.error_ev "EHOSTUNREACH" "connect EHOSTUNREACH")] s0
      = Some s
    ∧ HostAware.s_deferred s = []
    ∧ HostAware.s_checks s !! 0 = Some p
    ∧ promise (HostAware.p_deferred p)
      = Rejected (system_error "EHOSTUNREACH" "connect EHOSTUNREACH"))
    as (s0 & s & p & Hinvoke & Hrun & Hd & Hp & Hres).
  { eexists _, _, _. split; [vm_compute; reflexivity|].
    split; [vm_compute; reflexivity|]. repeat split; reflexivity. }
  assert (HostAware.reachable (λ _, true) s) as Hreach.
  { refine (reachable_run (λ _, true) _ s0 s _ Hrun).
    exact (HostAware.reach_invoke _ _ _ Hinvoke). }
  destruct (probe_error_rejects (λ _, true) s 0 p _ Hreach Hd Hp Hres)
    as (s' & Hstep & Hd' & _).
  exists s0, s, s'. split; [exact Hinvoke|]. split; [exact Hrun|].
  split; [exact Hstep | exact Hd'].
Defined.

Lemma settled_session_holds_no_timer_witness :
  ∃ s0 s,
    HostAware.invoke (λ _, true)
      (HostAware.call_waitUntilFree (VInt 44203) (VInt 500) (VInt 1000)) = Normal s0
    ∧ HostAware.run (λ _, true) [HostAware.timer_fires 0] s0 = Some s
    ∧ Timers.armed (HostAware.s_timers s) = ∅
    ∧ HostAware.s_timedout s = true.
Proof.
  assert (∃ s0 s,
    HostAware.invoke (λ _, true)
      (HostAware.call_waitUntilFree (VInt 44203) (VInt 500) (VInt 1000)) = Normal s0
    ∧ HostAware.run (λ _, true) [HostAware.timer_fires 0] s0 = Some s
    ∧ HostAware.s_deferred s ≠ []
    ∧ HostAware.s_timedout s = true)
    as (s0 & s & Hinvoke & Hrun & Hd & Hto).
  { eexists _, _. split; [vm_compute; reflexivity|].
    split; [vm_compute; reflexivity|]. split; [vm_compute; discriminate|reflexivity]. }
  assert (HostAware.reachable (λ _, true) s) as Hreach.
  { refine (reachable_run (λ _, true) _ s0 s _ Hrun).
    exact (HostAware.reach_invoke _ _ _ Hinvoke). }
  exists s0, s. split; [exact Hinvoke|]. split; [exact Hrun|].
  split; [|exact Hto].
  exact (proj1 (settled_session_holds_no_timer (λ _, true) s Hreach Hd)).
Defined.


(** ** The current module: whole polling runs *)

Section PollingRuns.
Import HostAware.
Variable host_syntax : string → bool.

Ltac map_solve :=
  apply map_eq; intros ?k;
  repeat (rewrite ?lookup_delete, ?lookup_insert, ?lookup_singleton, ?lookup_empty;
          repeat case_decide; subst; try done).

Ltac open_session :=
  cbv beta iota zeta delta
    [run_timeoutFunc cleanUp then_fulfilled
     free_fulfilled used_fulfilled then_rejected schedule_retry
     with_deferred with_timedout with_retryId with_timers with_checks
     Timers.clear Timers.setTimeout Timers.arm
     s_op s_port s_host s_retryTimeMs s_timeOutMs s_deferred s_timedout
     s_retryId s_timeoutId s_timers s_checks Timers.armed Timers.fresh
     Promise.reject Promise.resolve app wanted negb].

Lemma run_app evs1 evs2 s :
  run host_syntax (evs1 ++ evs2) s
  = run host_syntax evs1 s ≫= run host_syntax evs2.
Proof.
  revert s. induction evs1 as [|ev evs1 IH]; intros s; cbn [app run]; [done|].
  by destruct (step host_syntax ev s) as [[s'|e]|].
Qed.

Lemma answer_delivered port hs inUse :
  ∃ p, socket_emits (answer inUse) (connecting host_syntax port (VStr hs)) = Some p
       ∧ promise (p_deferred p) = Fulfilled inUse.
Proof.
  destruct inUse; cbn [answer].
  - rewrite connect_succeeds. eauto.
  - rewrite connect_refused. eauto.
Qed.

Lemma one_round op port hs rt tt rid k inUse :
  Is2.port port = true → 0 < k → wanted op inUse = false →
  run host_syntax [network 0 (answer inUse); promise_settled 0; timer_fires k]
    (between_rounds host_syntax op port hs rt tt rid k)
  = Some (between_rounds host_syntax op port hs rt tt (Some k) (S k)).
Proof.
  intros Hport Hk Hw. unfold between_rounds.
  destruct (answer_delivered port hs inUse) as (p & Hp & Hres).
  cbn [run step s_checks lookup list_lookup mbind option_bind].
  rewrite Hp. cbn [mbind option_bind with_checks s_checks].
  cbn [insert list_insert lookup list_lookup mbind option_bind].
  rewrite Hres.
  assert (Hne : 0 ≠ k) by lia.
  destruct op, inUse; try discriminate Hw; open_session.
  all: unfold Timers.fire; cbn [Timers.armed];
       rewrite lookup_insert_eq; cbn [mbind option_bind Timers.callback Timers.repeat];
       unfold doCheck; open_session;
       rewrite check_valid by done; cbn [cbind]; open_session.
  all: do 3 f_equal; map_solve.
Qed.

Lemma many_rounds op port hs rt tt inUse n : ∀ rid k,
  Is2.port port = true → 0 < k → wanted op inUse = false →
  ∃ rid',
    run host_syntax (rounds (answer inUse) k n)
      (between_rounds host_syntax op port hs rt tt rid k)
    = Some (between_rounds host_syntax op port hs rt tt rid' (n + k)).
Proof.
  induction n as [|n IH]; intros rid k Hport Hk Hw; cbn [rounds].
  - by exists rid.
  - change (network 0 (answer inUse) :: promise_settled 0 :: timer_fires k
              :: rounds (answer inUse) (S k) n)
      with ([network 0 (answer inUse); promise_settled 0; timer_fires k]
              ++ rounds (answer inUse) (S k) n).
    rewrite run_app, one_round by done. cbn [mbind option_bind].
    destruct (IH (Some k) (S k)) as [rid' Hrun]; [done|lia|done|].
    exists rid'. rewrite Hrun. do 2 f_equal. lia.
Qed.

Lemma last_round op port hs rt tt rid k inUse :
  wanted op inUse = true →
  ∃ s, run host_syntax [network 0 (answer inUse); promise_settled 0]
         (between_rounds host_syntax op port hs rt tt rid k) = Some s
       ∧ s_deferred s = [Resolve ()]
       ∧ Timers.armed (s_timers s) = ∅
       ∧ s_checks s = [].
Proof.
  intros Hw. unfold between_rounds.
  destruct (answer_delivered port hs inUse) as (p & Hp & Hres).
  cbn [run step s_checks lookup list_lookup mbind option_bind].
  rewrite Hp. cbn [mbind option_bind with_checks s_checks].
  cbn [insert list_insert lookup list_lookup mbind option_bind].
  rewrite Hres. eexists. split; [reflexivity|].
  destruct op, inUse, rid; try discriminate Hw; open_session; repeat split; map_solve.
Qed.

Lemma invoke_between_rounds c s :
  invoke host_syntax c = Normal s → Is2.port (s_port s) = true →
  ∃ hs, s = between_rounds host_syntax (s_op s) (s_port s) hs
              (s_retryTimeMs s) (s_timeOutMs s) None 1.
Proof.
  intros Hs Hp.
  assert (∃ op port host r t,
    s = mk_session op port (host_or_default host_syntax host) r t [] false None (Some 0)
          {| Timers.armed := {[0 := Timers.mk_timer false timeoutFunc t]};
             Timers.fresh := 1 |}
          [connecting host_syntax port (host_or_default host_syntax host)])
    as (op & port & host & r & t & ->).
  { destruct c as [p r t|p h r t|p r t|p h r t]; cbn [invoke] in Hs;
      unfold waitUntilFree, waitUntilUsed in Hs;
      destruct (Is2.port p) eqn:Hport.
    all: first
      [ rewrite waitUntilFreeOnHost_valid in Hs by done
      | rewrite waitUntilUsedOnHost_valid in Hs by done
      | rewrite waitUntilFreeOnHost_invalid in Hs by done
      | rewrite waitUntilUsedOnHost_invalid in Hs by done ].
    all: injection Hs as <-; cbn in Hp; try congruence.
    all: eexists _, _, _, _, _; reflexivity. }
  destruct (host_or_default_string host_syntax host) as [hs Hh].
  exists hs. unfold between_rounds.
  cbn [s_op s_port s_retryTimeMs s_timeOutMs]. by rewrite Hh.
Qed.

(** X5. A wait on a valid port whose probes find the port in the
    other state [n] times in a row, each followed by the retry timer,
    and then find it in the state waited for, resolves — provided the
    deadline has not fired in between — and is left with no timer
    armed and no probe outstanding.  This holds for all four wait
    functions and every [n]. *)
Theorem wait_resolves_after_retries c s0 inUse n :
  invoke host_syntax c = Normal s0 → Is2.port (s_port s0) = true →
  wanted (s_op s0) inUse = true →
  ∃ s, run host_syntax
         (rounds (answer (negb inUse)) 1 n
            ++ [network 0 (answer inUse); promise_settled 0]) s0 = Some s
       ∧ s_deferred s = [Resolve ()]
       ∧ Timers.armed (s_timers s) = ∅
       ∧ s_checks s = [].
Proof.
  intros Hs Hp Hw.
  destruct (invoke_between_rounds c s0 Hs Hp) as [hs Hs0].
  set (op := s_op s0) in *. set (port := s_port s0) in *.
  set (rt := s_retryTimeMs s0) in *. set (tt := s_timeOutMs s0) in *.
  clearbody op port rt tt. subst s0.
  assert (Hw' : wanted op (negb inUse) = false).
  { destruct op, inUse; done. }
  destruct (many_rounds op port hs rt tt (negb inUse) n None 1)
    as [rid Hrun]; [done|lia|done|].
  rewrite run_app, Hrun. cbn [mbind option_bind].
  by apply last_round.
Qed.
End PollingRuns.

Lemma wait_resolves_after_retries_witness :
  ∃ s0 s,
    HostAware.invoke (λ _, true)
      (HostAware.call_waitUntilUsed (VInt 44204) (VInt 500) (VInt 4000)) = Normal s0
    ∧ HostAware.run (λ _, true)
        (HostAware.rounds (HostAware.answer false) 1 3
           ++ [HostAware.network 0 (HostAware.answer true);
               HostAware.promise_settled 0]) s0 = Some s
    ∧ HostAware.s_deferred s = [Resolve ()].
Proof.
  assert (∃ s0,
    HostAware.invoke (λ _, true)
      (HostAware.call_waitUntilUsed (VInt 44204) (VInt 500) (VInt 4000)) = Normal s0
    ∧ Is2.port (HostAware.s_port s0) = true
    ∧ HostAware.wanted (HostAware.s_op s0) true = true)
    as (s0 & Hinvoke & Hport & Hwanted).
  { eexists. split; [vm_compute; reflexivity|]. split; reflexivity. }
  destruct (wait_resolves_after_retries (λ _, true) _ s0 true 3 Hinvoke Hport Hwanted)
    as (s & Hrun & Hd & _).
  exists s0, s. split; [exact Hinvoke|]. split; [exact Hrun | exact Hd].
Defined.


(** ** The current module: where the probes go *)

Section ProbeTargets.
Import HostAware.
Variable host_syntax : string → bool.

Lemma host_or_default_again host :
  host_or_default host_syntax (host_or_default host_syntax host)
  = host_or_default host_syntax host.
Proof.
  unfold host_or_default.
  destruct (Is2.hostAddress host_syntax host) eqn:Hhost; cbn [negb].
  - by rewrite Hhost.
  - apply loopback_kept.
Qed.

Lemma check_request port host p q :
  check host_syntax port host = Normal p → connect_request p = Some q →
  q = connect_to port (host_or_default host_syntax host).
Proof.
  destruct (Is2.port port) eqn:Hp.
  - rewrite check_valid by done. intros [= <-]. cbn. congruence.
  - rewrite check_invalid by done. intros [= <-]. done.
Qed.

Lemma call_keeps_state ev l p :
  Net.conn_state <$> p_client (call ev l p) = Net.conn_state <$> p_client p.
Proof.
  destruct p as [d u [c|]], l, ev; cbn; try done.
  all: unfold run_onErrorCb; by case_bool_decide.
Qed.

Lemma calls_keep_state ev ls p :
  Net.conn_state <$> p_client (foldl (λ p l, call ev l p) p ls)
  = Net.conn_state <$> p_client p.
Proof.
  revert p. induction ls as [|l ls IH]; intros p; cbn [foldl]; [done|].
  by rewrite IH, call_keeps_state.
Qed.

Lemma answered_probe_requests_nothing ev p p' :
  socket_emits ev p = Some p' → connect_request p' = None.
Proof.
  unfold socket_emits. destruct (p_client p) as [c|]; [|done].
  cbn [mbind option_bind]. unfold Net.deliver.
  destruct (Net.conn_state c); try done.
  destruct (EventEmitter.emit _ _) as [ls e]. cbn [mbind option_bind].
  intros [= <-]. unfold connect_request.
  pose proof (calls_keep_state ev ls
    {| p_deferred := p_deferred p; p_inUse := p_inUse p;
       p_client := Some {| Net.conn_state :=
                             match ev with
                             | Net.connect_ev => Net.Open
                             | Net.error_ev _ _ => Net.Closed
                             end;
                           Net.listeners := e |} |}) as Hst.
  destruct (p_client (foldl _ _ _)) as [c'|]; [|done].
  cbn in Hst. injection Hst as ->. by destruct ev.
Qed.

Lemma elem_of_insert_inv {A} (l : list A) i x y :
  y ∈ <[i:=x]> l → y = x ∨ y ∈ l.
Proof.
  revert i. induction l as [|a l IH]; intros [|i]; cbn; try (by right).
  - intros [->|?]%elem_of_cons; [by left|right; by apply elem_of_cons; right].
  - intros [->|[->|?]%IH]%elem_of_cons.
    + right; by apply elem_of_cons; left.
    + by left.
    + right; by apply elem_of_cons; right.
Qed.

Lemma then_fulfilled_checks inUse s : s_checks (then_fulfilled inUse s) = s_checks s.
Proof. by destruct s as [[] ? ? ? ? ? [] [?|] [?|] ? ?], inUse. Qed.

Lemma then_rejected_checks err s : s_checks (then_rejected err s) = s_checks s.
Proof. by destruct s as [? ? ? ? ? ? [] [?|] [?|] ? ?]. Qed.

Lemma run_timeoutFunc_checks s : s_checks (run_timeoutFunc s) = s_checks s.
Proof. by destruct s as [? ? ? ? ? ? ? [?|] [?|] ? ?]. Qed.

Lemma step_on_target s ev s' :
  on_target host_syntax s → step host_syntax ev s = Some (Normal s') → on_target host_syntax s'.
Proof.
  intros [Hhost Hreq] Hstep.
  destruct (step_target host_syntax s ev s' Hstep) as [Hport' Hhost'].
  split; [by rewrite Hport', Hhost'|]. rewrite Hport', Hhost'.
  destruct ev as [h | i ev | i]; unfold step in Hstep.
  - destruct (Timers.fire h (s_timers s)) as [[[] ts]|];
      cbn [mbind option_bind] in Hstep; [| |done].
    + injection Hstep as <-. by rewrite run_timeoutFunc_checks.
    + injection Hstep as Hstep.
      apply doCheck_pushes_check in Hstep as (p & Hp & ->).
      cbn [with_checks with_timers s_checks s_port s_host] in *.
      intros p0 q [Hin| ->%list_elem_of_singleton]%elem_of_app Hq; [by eauto|].
      rewrite (check_request _ _ _ _ Hp Hq).
      destruct (Is2.port (s_port s)) eqn:Hvalid; [by rewrite Hhost|].
      rewrite check_invalid in Hp by done. by injection Hp as <-.
  - destruct (s_checks s !! i) as [p|]; cbn [mbind option_bind] in Hstep; [|done].
    destruct (socket_emits ev p) as [p'|] eqn:Hp';
      cbn [mbind option_bind] in Hstep; [|done].
    injection Hstep as <-. cbn [with_checks s_checks].
    intros p0 q [->|Hin]%elem_of_insert_inv Hq; [|by eauto].
    by rewrite (answered_probe_requests_nothing _ _ _ Hp') in Hq.
  - destruct (s_checks s !! i) as [p|]; cbn [mbind option_bind] in Hstep; [|done].
    destruct (promise (p_deferred p)); [done|..]; injection Hstep as <-.
    + rewrite then_fulfilled_checks. cbn [with_checks s_checks].
      intros p0 q Hin%list_elem_of_delete_inv. by eauto.
    + rewrite then_rejected_checks. cbn [with_checks s_checks].
      intros p0 q Hin%list_elem_of_delete_inv. by eauto.
Qed.

Lemma run_on_target evs : ∀ s s',
  on_target host_syntax s → run host_syntax evs s = Some s' →
  on_target host_syntax s' ∧ s_port s' = s_port s ∧ s_host s' = s_host s.
Proof.
  induction evs as [|ev evs IH]; intros s s' Hs; cbn [run].
  - by intros [= <-].
  - destruct (step host_syntax ev s) as [[s1|e]|] eqn:Hstep; [|done..].
    intros Hrun.
    destruct (step_target host_syntax s ev s1 Hstep) as [Hport Hhost].
    destruct (IH s1 s' (step_on_target s ev s1 Hs Hstep) Hrun) as (? & -> & ->).
    done.
Qed.

Lemma invoke_on_target c s :
  invoke host_syntax c = Normal s →
  on_target host_syntax s ∧ s_port s = call_port c
  ∧ (Is2.port (call_port c) = true →
     s_host s = host_or_default host_syntax (call_host c)).
Proof.
  destruct c as [p r t|p h r t|p r t|p h r t]; cbn [invoke call_port call_host];
    unfold waitUntilFree, waitUntilUsed; intros Hs;
    destruct (Is2.port p) eqn:Hport.
  all: first
    [ rewrite waitUntilFreeOnHost_valid in Hs by done
    | rewrite waitUntilUsedOnHost_valid in Hs by done
    | rewrite waitUntilFreeOnHost_invalid in Hs by done
    | rewrite waitUntilUsedOnHost_invalid in Hs by done ].
  all: injection Hs as <-; unfold on_target;
       cbn [s_port s_host s_checks]; rewrite ?Hport.
  all: split; [|done].
  all: split; [first [done | intros _; apply host_or_default_again]|].
  all: intros p0 q Hin Hq; try by apply elem_of_nil in Hin.
  all: apply list_elem_of_singleton in Hin as ->; cbn in Hq;
       injection Hq as <-; by rewrite host_or_default_again.
Qed.

(** X6. Every probe a wait issues, at any point of the session,
    connects to the port the caller gave and to the caller's host if
    [is.hostAddress] accepts it, to 127.0.0.1 otherwise (always
    127.0.0.1 for the no-host variants): no event changes the
    target. *)
Theorem probes_keep_their_target c s0 evs s p q :
  invoke host_syntax c = Normal s0 → run host_syntax evs s0 = Some s →
  p ∈ s_checks s → connect_request p = Some q →
  q = connect_to (call_port c) (host_or_default host_syntax (call_host c)).
Proof.
  intros Hinvoke Hrun Hin Hq.
  destruct (invoke_on_target c s0 Hinvoke) as (Hon & Hport & Hhost).
  destruct (run_on_target evs s0 s Hon Hrun) as ([_ Hreq] & Hport' & Hhost').
  rewrite (Hreq p q Hin Hq), Hport', Hhost', Hport.
  destruct (Is2.port (call_port c)) eqn:Hvalid; [by rewrite Hhost|].
  exfalso.
  assert (s_checks s0 = [] ∧ Timers.armed (s_timers s0) = ∅) as [Hnil Harmed].
  { destruct (invoke_invalid host_syntax c s0 Hinvoke) as (_ & -> & ->);
      [by rewrite Hport|done]. }
  assert (s = s0) as ->.
  { destruct evs as [|[h|i ev|i] evs]; cbn [run] in Hrun; [congruence|..];
      unfold step, Timers.fire in Hrun; rewrite ?Hnil, ?Harmed in Hrun;
      by rewrite ?lookup_empty in Hrun. }
  rewrite Hnil in Hin. by apply elem_of_nil in Hin.
Qed.
End ProbeTargets.

Lemma probes_keep_their_target_witness :
  ∃ s0 s p,
    HostAware.invoke (λ _, true)
      (HostAware.call_waitUntilFree (VInt 44203) (VInt 500) (VInt 4000)) = Normal s0
    ∧ HostAware.run (λ _, true)
        (HostAware.rounds (HostAware.answer true) 1 2) s0 = Some s
    ∧ p ∈ HostAware.s_checks s
    ∧ HostAware.connect_request p
      = Some (connect_to (VInt 44203) (VStr "127.0.0.1")).
Proof.
  assert (∃ s0 s p q,
    HostAware.invoke (λ _, true)
      (HostAware.call_waitUntilFree (VInt 44203) (VInt 500) (VInt 4000)) = Normal s0
    ∧ HostAware.run (λ _, true)
        (HostAware.rounds (HostAware.answer true) 1 2) s0 = Some s
    ∧ HostAware.s_checks s = [p]
    ∧ HostAware.connect_request p = Some q)
    as (s0 & s & p & q & Hinvoke & Hrun & Hchecks & Hq).
  { eexists _, _, _, _. split; [vm_compute; reflexivity|].
    split; [vm_compute; reflexivity|]. split; reflexivity. }
  assert (p ∈ HostAware.s_checks s) as Hin.
  { rewrite Hchecks. apply list_elem_of_singleton. reflexivity. }
  exists s0, s, p. split; [exact Hinvoke|]. split; [exact Hrun|]. split; [exact Hin|].
  rewrite Hq. f_equal.
  exact (probes_keep_their_target (λ _, true) _ s0 _ s p q Hinvoke Hrun Hin Hq).
Defined.


(** ** Deadlines *)

Section Deadlines.
Variable host_syntax : string → bool.

(** X7. Whatever the caller passes as timeout (nothing, zero, a
    negative or fractional number, a string), each wait function on a
    valid port arms its deadline as a one-shot timer with a positive
    integer delay; [waitUntilUsedOnHost] also ends up with a positive
    integer retry interval. *)
Theorem deadline_is_armed_with_positive_delay (port host r t : val) :
  Is2.port port = true →
  (∃ s tm,
     HostAware.waitUntilFreeOnHost host_syntax port host r t = Normal s
     ∧ (HostAware.s_timeoutId s ≫= λ h, Timers.armed (HostAware.s_timers s) !! h)
       = Some tm
     ∧ Timers.callback tm = HostAware.timeoutFunc ∧ Timers.repeat tm = false
     ∧ Is2.positiveInt (Timers.delay tm) = true)
  ∧ (∃ s tm,
       HostAware.waitUntilUsedOnHost host_syntax port host r t = Normal s
       ∧ (HostAware.s_timeoutId s ≫= λ h, Timers.armed (HostAware.s_timers s) !! h)
         = Some tm
       ∧ Timers.callback tm = HostAware.timeoutFunc ∧ Timers.repeat tm = false
       ∧ Is2.positiveInt (Timers.delay tm) = true
       ∧ Is2.positiveInt (HostAware.s_retryTimeMs s) = true)
  ∧ (∃ tm,
       (Interval.f_timeoutId (Interval.waitUntilFree port r t)
          ≫= λ h, Timers.armed (Interval.f_timers (Interval.waitUntilFree port r t)) !! h)
       = Some tm
       ∧ Timers.callback tm = Interval.set_done ∧ Timers.repeat tm = false
       ∧ Is2.positiveInt (Timers.delay tm) = true)
  ∧ (∃ tm,
       (Interval.u_timeoutId (Interval.waitUntilUsed port r t)
          ≫= λ h, Timers.armed (Interval.u_timers (Interval.waitUntilUsed port r t)) !! h)
       = Some tm
       ∧ Timers.callback tm = Interval.set_done ∧ Timers.repeat tm = false
       ∧ Is2.positiveInt (Timers.delay tm) = true).
Proof.
  intros Hp. split; [|split; [|split]].
  - rewrite waitUntilFreeOnHost_valid by done. eexists _, _.
    split; [reflexivity|]. cbn. rewrite lookup_singleton_eq.
    split; [reflexivity|]. cbn. by destruct (Is2.positiveInt t) eqn:Ht.
  - rewrite waitUntilUsedOnHost_valid by done. eexists _, _.
    split; [reflexivity|]. cbn. rewrite lookup_singleton_eq.
    split; [reflexivity|]. cbn.
    by destruct (Is2.positiveInt t) eqn:Ht, (Is2.positiveInt r) eqn:Hr.
  - unfold Interval.waitUntilFree. rewrite Hp.
    destruct (Is2.positiveInt t) eqn:Ht; cbn; rewrite ?Ht; cbn;
      (eexists; split; [reflexivity|]); cbn; by rewrite ?Ht.
  - unfold Interval.waitUntilUsed. rewrite Hp.
    destruct (Is2.positiveInt r) eqn:Hr, (Is2.positiveInt t) eqn:Ht;
      cbn; rewrite ?Ht; cbn; rewrite ?Ht; cbn;
      (eexists; split; [reflexivity|]); cbn; by rewrite ?Ht.
Qed.
End Deadlines.

Lemma deadline_is_armed_with_positive_delay_witness :
  ∃ tm,
    (Interval.u_timeoutId (Interval.waitUntilUsed (VInt 44204) VUndefined (VStr "soon"))
       ≫= λ h, Timers.armed
                 (Interval.u_timers
                    (Interval.waitUntilUsed (VInt 44204) VUndefined (VStr "soon"))) !! h)
    = Some tm
    ∧ Is2.positiveInt (Timers.delay tm) = true.
Proof.
  destruct (deadline_is_armed_with_positive_delay (λ _, true)
              (VInt 44204) VUndefined VUndefined (VStr "soon"))
    as (_ & _ & _ & tm & Htm & _ & _ & Hpos); [reflexivity|].
  exists tm. split; [exact Htm | exact Hpos].
Defined.

(** ** The bind-based probes: every outcome *)

Section BindProbeRuns.

Lemma interval_unbound_is_final ev d u :
  Interval.server_emits ev
    {| Interval.p_deferred := d; Interval.p_inUse := u;
       Interval.p_server := {| Net.bind_state := Net.Unbound; Net.handlers := ∅ |} |}
  = None.
Proof. by destruct ev. Qed.

Lemma interval_released_is_final ev d u :
  Interval.server_emits ev
    {| Interval.p_deferred := d; Interval.p_inUse := u;
       Interval.p_server := {| Net.bind_state := Net.Released; Net.handlers := ∅ |} |}
  = None.
Proof. by destruct ev. Qed.

Lemma interval_binding_events port ev p :
  Interval.server_emits ev (Interval.binding port) = Some p →
  (p = Interval.closing ∧ ev = Net.srv_listening)
  ∨ (∃ x, p = {| Interval.p_deferred := [x]; Interval.p_inUse := true;
                 Interval.p_server :=
                   {| Net.bind_state := Net.Unbound; Net.handlers := ∅ |} |}).
Proof.
  destruct ev as [errno msg| |].
  - destruct (decide (errno = "EADDRINUSE")) as [->|Hne].
    + rewrite interval_in_use. intros [= <-]. eauto.
    + rewrite interval_bind_fails by done. intros [= <-]. eauto.
  - rewrite interval_bound. intros [= <-]. eauto.
  - done.
Qed.

Lemma interval_closing_events ev p :
  Interval.server_emits ev Interval.closing = Some p →
  p = {| Interval.p_deferred := [Resolve false]; Interval.p_inUse := true;
         Interval.p_server :=
           {| Net.bind_state := Net.Released; Net.handlers := ∅ |} |}.
Proof.
  destruct ev as [errno msg| |]; [done|done|].
  rewrite interval_released. by intros [= <-].
Qed.

(** X8. However the bind of [Interval.check] on a valid port turns
    out, once its promise is settled the probe has made exactly one
    [resolve] or [reject] call, has no handler left on its server, and
    the server is not bound (the bind failed or the port was
    released); no further server event reaches the probe. *)
Theorem bind_probe_releases_everything (port : val) evs p :
  Is2.port port = true →
  Interval.p_run evs (Interval.check port) = Some p →
  promise (Interval.p_deferred p) ≠ Pending →
  length (Interval.p_deferred p) = 1
  ∧ Net.handlers (Interval.p_server p) = ∅
  ∧ (Net.bind_state (Interval.p_server p) = Net.Unbound
     ∨ Net.bind_state (Interval.p_server p) = Net.Released)
  ∧ ∀ ev, Interval.server_emits ev p = None.
Proof.
  intros Hp. rewrite (interval_check_valid _ Hp).
  destruct evs as [|e1 evs]; cbn [Interval.p_run]; [by intros [= <-]|].
  destruct (Interval.server_emits e1 _) as [p1|] eqn:H1; [|done].
  cbn [mbind option_bind].
  apply interval_binding_events in H1 as [[-> ->]|[x ->]].
  - destruct evs as [|e2 evs]; cbn [Interval.p_run]; [by intros [= <-]|].
    destruct (Interval.server_emits e2 _) as [p2|] eqn:H2; [|done].
    cbn [mbind option_bind]. apply interval_closing_events in H2 as ->.
    destruct evs as [|e3 evs]; cbn [Interval.p_run].
    + intros [= <-] _. repeat split; eauto using interval_released_is_final.
    + by rewrite interval_released_is_final.
  - destruct evs as [|e2 evs]; cbn [Interval.p_run].
    + intros [= <-] _. repeat split; eauto using interval_unbound_is_final.
    + by rewrite interval_unbound_is_final.
Qed.









End BindProbeRuns.

Lemma bind_probe_releases_everything_witness :
  ∃ p, Interval.p_run [Net.srv_listening; Net.srv_close] (Interval.check (VInt 44201))
       = Some p
       ∧ Net.handlers (Interval.p_server p) = ∅.
Proof.
  assert (∃ p,
    Interval.p_run [Net.srv_listening; Net.srv_close] (Interval.check (VInt 44201))
    = Some p ∧ promise (Interval.p_deferred p) ≠ Pending) as (p & Hrun & Hsettled).
  { eexists. split; [vm_compute; reflexivity|]. vm_compute. discriminate. }
  exists p. split; [exact Hrun|].
  exact (proj1 (proj2 (bind_probe_releases_everything
                         (VInt 44201) _ p eq_refl Hrun Hsettled))).
Defined.



(** ** The interval-driven sessions: whole polling runs *)

Section IntervalRuns.
Import Interval.

Lemma waitUntilFree_valid port r t :
  Is2.port port = true →
  waitUntilFree port r t
  = free_polling port r (if Is2.positiveInt t then t else VInt 100).
Proof.
  intros Hp. unfold waitUntilFree. rewrite Hp.
  destruct (Is2.positiveInt t) eqn:Ht; cbn; rewrite ?Ht; reflexivity.
Qed.

Lemma f_run_app evs1 evs2 s :
  f_run (evs1 ++ evs2) s = f_run evs1 s ≫= f_run evs2.
Proof.
  revert s. induction evs1 as [|ev evs1 IH]; intros s; cbn [app f_run]; [done|].
  destruct (f_step ev s) as [s'|]; cbn [mbind option_bind]; [apply IH|done].
Qed.

Lemma f_taken_round port r T :
  f_run (f_rounds 1 1) (free_polling port r T) = Some (free_polling port r T).
Proof. vm_compute. reflexivity. Qed.

Lemma f_taken_rounds port r T n :
  f_run (f_rounds 1 n) (free_polling port r T) = Some (free_polling port r T).
Proof.
  induction n as [|n IH]; [done|].
  change (f_rounds 1 (S n)) with (f_rounds 1 1 ++ f_rounds 1 n).
  by rewrite f_run_app, f_taken_round.
Qed.

(** X10. [waitUntilFree] on a valid port that is taken for [n] ticks
    of the interval (each bind failing with EADDRINUSE) and free at
    the next one resolves after the server it bound has been closed,
    with neither the interval nor the deadline left armed; the
    failed binds leave the session exactly as it started. *)
Theorem interval_waitUntilFree_resolves_when_freed (port r t : val) n :
  Is2.port port = true →
  f_run (f_rounds 1 n) (waitUntilFree port r t) = Some (waitUntilFree port r t)
  ∧ ∃ s1 s2,
      f_run (f_rounds 1 n
               ++ [f_timer_fires 1; f_server_event Net.srv_listening])
        (waitUntilFree port r t) = Some s1
      ∧ f_deferred s1 = []
      ∧ Timers.armed (f_timers s1) = ∅
      ∧ Net.bind_state <$> f_server s1 = Some Net.Closing
      ∧ f_step (f_server_event Net.srv_close) s1 = Some s2
      ∧ f_deferred s2 = [Resolve ()]
      ∧ Timers.armed (f_timers s2) = ∅
      ∧ Net.bind_state <$> f_server s2 = Some Net.Released.
Proof.
  intros Hp. rewrite waitUntilFree_valid by done.
  split; [apply f_taken_rounds|].
  eexists _, _. rewrite f_run_app, f_taken_rounds. cbn [mbind option_bind].
  split; [vm_compute; reflexivity|].
  do 3 (split; [vm_compute; reflexivity|]).
  split; [vm_compute; reflexivity|].
  repeat split; vm_compute; reflexivity.
Qed.

(** X11. In [waitUntilFree] on a valid port, when the deadline has
    fired, the next tick of the interval rejects with the timeout
    error and disarms the interval, so no timer is left; the same
    tick still calls [listen], so a bind is in progress when the
    caller sees the timeout.  This holds however many failed binds
    came before. *)
Theorem interval_waitUntilFree_times_out (port r t : val) n :
  Is2.port port = true →
  ∃ s,
    f_run (f_rounds 1 n ++ [f_timer_fires 0; f_timer_fires 1])
      (waitUntilFree port r t) = Some s
    ∧ f_deferred s
      = [Reject (new_Error ("waitUntilFree: timeout after "
                            +:+ to_string (f_timeOutMs (waitUntilFree port r t))
                            +:+ " ms."))]
    ∧ Timers.armed (f_timers s) = ∅
    ∧ Net.bind_state <$> f_server s = Some (Net.Binding port).
Proof.
  intros Hp. rewrite waitUntilFree_valid by done.
  eexists. rewrite f_run_app, f_taken_rounds. cbn [mbind option_bind].
  split; [vm_compute; reflexivity|].
  repeat split; vm_compute; reflexivity.
Qed.

Lemma waitUntilUsed_valid port r t :
  Is2.port port = true →
  waitUntilUsed port r t
  = used_polling port r
      (if Is2.positiveInt r
       then (if Is2.positiveInt t then t else VInt 300)
       else VInt 100) [].
Proof.
  intros Hp. unfold waitUntilUsed. rewrite Hp.
  destruct (Is2.positiveInt r) eqn:Hr, (Is2.positiveInt t) eqn:Ht;
    cbn; rewrite ?Ht; cbn; rewrite ?Ht; reflexivity.
Qed.

Lemma u_tick_polling port r T cs :
  Is2.port port = true →
  u_step (u_timer_fires 1) (used_polling port r T cs)
  = Some (Normal (used_polling port r T (cs ++ [fresh_client port]))).
Proof.
  intros Hp. unfold u_step, used_polling, Timers.fire. cbn.
  unfold u_tick, Net.connect, Net.legal_target. cbn. rewrite Hp. reflexivity.
Qed.

Lemma deliver_refusal port m :
  Net.deliver (Net.error_ev "ECONNREFUSED" m) (fresh_client port)
  = Some ([onErrorCb], refused_client).
Proof. vm_compute. reflexivity. Qed.

Lemma deliver_connection port :
  Net.deliver Net.connect_ev (fresh_client port)
  = Some ([onConnectCb],
          {| Net.conn_state := Net.Open;
             Net.listeners := EventEmitter.once "error" onErrorCb ∅ |}).
Proof. vm_compute. reflexivity. Qed.

Lemma u_refused_round port r T cs :
  Is2.port port = true →
  u_run (u_rounds 1 (length cs) 1) (used_polling port r T cs)
  = Some (used_polling port r T (cs ++ [refused_client])).
Proof.
  intros Hp. cbn [u_rounds u_run]. rewrite u_tick_polling by done.
  unfold u_step, used_polling. cbn [u_clients].
  rewrite list_lookup_middle by done. cbn [mbind option_bind].
  rewrite deliver_refusal. cbn [mbind option_bind foldl u_call].
  unfold u_onErrorCb. cbn [code system_error].
  rewrite bool_decide_eq_true_2 by done. cbn [negb u_with_clients u_clients].
  rewrite insert_app_r_alt, Nat.sub_diag by done. reflexivity.
Qed.

Lemma u_run_app evs1 evs2 s :
  u_run (evs1 ++ evs2) s = u_run evs1 s ≫= u_run evs2.
Proof.
  revert s. induction evs1 as [|ev evs1 IH]; intros s; cbn [app u_run]; [done|].
  destruct (u_step ev s) as [[s'|e]|]; cbn [mbind option_bind]; [apply IH|done..].
Qed.

Lemma u_refused_rounds port r T n : ∀ cs,
  Is2.port port = true →
  u_run (u_rounds 1 (length cs) n) (used_polling port r T cs)
  = Some (used_polling port r T (cs ++ replicate n refused_client)).
Proof.
  induction n as [|n IH]; intros cs Hp.
  - cbn. by rewrite app_nil_r.
  - change (u_rounds 1 (length cs) (S n))
      with (u_rounds 1 (length cs) 1 ++ u_rounds 1 (S (length cs)) n).
    rewrite u_run_app, u_refused_round by done. cbn [mbind option_bind].
    replace (S (length cs)) with (length (cs ++ [refused_client]))
      by (rewrite length_app; cbn; lia).
    rewrite IH by done. by rewrite <- app_assoc.
Qed.

Lemma u_connected_round port r T cs :
  Is2.port port = true →
  ∃ s, u_run [u_timer_fires 1; u_network (length cs) Net.connect_ev]
         (used_polling port r T cs) = Some s
       ∧ u_deferred s = [Resolve ()]
       ∧ Timers.armed (u_timers s) = ∅
       ∧ u_clients s
         = cs ++ [{| Net.conn_state := Net.Open; Net.listeners := ∅ |}].
Proof.
  intros Hp. cbn [u_run]. rewrite u_tick_polling by done.
  unfold u_step, used_polling. cbn [u_clients].
  rewrite list_lookup_middle by done. cbn [mbind option_bind].
  rewrite deliver_connection. cbn [mbind option_bind foldl u_call].
  rewrite insert_app_r_alt, Nat.sub_diag by done. cbn [insert list_insert].
  unfold u_onConnectCb, u_cleanUp.
  cbn [u_with_deferred u_with_clients u_clients].
  rewrite list_lookup_middle by done.
  rewrite insert_app_r_alt, Nat.sub_diag by done. cbn [insert list_insert].
  eexists. split; [reflexivity|].
  split; [reflexivity|]. split; [vm_compute; reflexivity|].
  cbn. f_equal.
Qed.

(** X12. [waitUntilUsed] on a valid port whose first [n] ticks find
    nobody listening (each socket refused) and whose next tick
    connects resolves, with neither the interval nor the deadline
    left armed and the connected socket unsubscribed; a refused
    connection changes nothing but the socket it was made on. *)
Theorem interval_waitUntilUsed_resolves_when_used (port r t : val) n :
  Is2.port port = true →
  ∃ s0 s,
    u_run (u_rounds 1 0 n) (waitUntilUsed port r t) = Some s0
    ∧ u_deferred s0 = []
    ∧ u_timers s0 = u_timers (waitUntilUsed port r t)
    ∧ u_clients s0 = replicate n refused_client
    ∧ u_run (u_rounds 1 0 n ++ [u_timer_fires 1; u_network n Net.connect_ev])
        (waitUntilUsed port r t) = Some s
    ∧ u_deferred s = [Resolve ()]
    ∧ Timers.armed (u_timers s) = ∅
    ∧ u_clients s
      = replicate n refused_client
          ++ [{| Net.conn_state := Net.Open; Net.listeners := ∅ |}].
Proof.
  intros Hp. rewrite waitUntilUsed_valid by done.
  set (T := if Is2.positiveInt r then _ else _). clearbody T.
  pose proof (u_refused_rounds port r T n [] Hp) as Hrounds.
  cbn [length app] in Hrounds.
  destruct (u_connected_round port r T (replicate n refused_client) Hp)
    as (s & Hlast & Hd & Harmed & Hclients).
  rewrite length_replicate in Hlast.
  exists (used_polling port r T (replicate n refused_client)), s.
  split; [exact Hrounds|]. do 3 (split; [reflexivity|]).
  rewrite u_run_app, Hrounds. cbn [mbind option_bind]. done.
Qed.

Lemma u_deadline_polling port r T cs :
  u_step (u_timer_fires 0) (used_polling port r T cs)
  = Some (Normal (u_with_done true
                    (u_with_timers
                       (Timers.clear 0 (u_timers (used_polling port r T cs)))
                       (used_polling port r T cs)))).
Proof.
  unfold u_step. cbn [mbind option_bind].
  replace (Timers.fire 0 (u_timers (used_polling port r T cs)))
    with (Some (set_done, Timers.clear 0 (u_timers (used_polling port r T cs))))
    by (vm_compute; reflexivity).
  reflexivity.
Qed.

Lemma u_timeout_round port r T cs :
  Is2.port port = true →
  ∃ s, u_run [u_timer_fires 0; u_timer_fires 1] (used_polling port r T cs) = Some s
       ∧ u_deferred s = [Reject (new_Error "waitUntilListening: timeout.")]
       ∧ Timers.armed (u_timers s) = ∅
       ∧ u_clients s = cs ++ [fresh_client port].
Proof.
  intros Hp. cbn [u_run]. rewrite u_deadline_polling.
  unfold u_step, used_polling.
  cbv beta iota zeta delta
    [u_with_done u_with_timers u_timers u_port u_retryTimeMs u_timeOutMs
     u_deferred u_done u_timeoutId u_interval u_clients].
  replace (Timers.fire 1 _)
    with (Some (tick,
                Timers.clear 0
                  (Timers.setInterval tick r
                     (Timers.setTimeout set_done T Timers.none).2).2))
    by (vm_compute; reflexivity).
  cbn [mbind option_bind]. unfold u_tick, Net.connect, Net.legal_target.
  cbv beta iota zeta delta
    [u_with_done u_with_timers u_with_deferred u_with_clients u_cleanUp u_clear
     u_port u_retryTimeMs u_timeOutMs u_deferred u_done
     u_timeoutId u_interval u_timers u_clients].
  rewrite Hp. cbn [andb cbind].
  eexists. split; [reflexivity|]. split; [reflexivity|].
  split; [vm_compute; reflexivity|reflexivity].
Qed.

(** X13. In [waitUntilUsed] on a valid port, when the deadline has
    fired, the next tick rejects with the timeout error and disarms
    the interval, so no timer is left; the same tick still opens one
    more socket and connects it.  This holds however many refused
    connections came before. *)
Theorem interval_waitUntilUsed_times_out (port r t : val) n :
  Is2.port port = true →
  ∃ s,
    u_run (u_rounds 1 0 n ++ [u_timer_fires 0; u_timer_fires 1])
      (waitUntilUsed port r t) = Some s
    ∧ u_deferred s = [Reject (new_Error "waitUntilListening: timeout.")]
    ∧ Timers.armed (u_timers s) = ∅
    ∧ u_clients s = replicate n refused_client ++ [fresh_client port].
Proof.
  intros Hp. rewrite waitUntilUsed_valid by done.
  set (T := if Is2.positiveInt r then _ else _). clearbody T.
  pose proof (u_refused_rounds port r T n [] Hp) as Hrounds.
  cbn [length app] in Hrounds.
  destruct (u_timeout_round port r T (replicate n refused_client) Hp)
    as (s & Hlast & Hrest).
  exists s. rewrite u_run_app, Hrounds. cbn [mbind option_bind]. done.
Qed.
End IntervalRuns.

Lemma interval_waitUntilFree_resolves_when_freed_witness :
  Interval.f_run (Interval.f_rounds 1 3)
    (Interval.waitUntilFree (VInt 44203) (VInt 500) (VInt 4000))
  = Some (Interval.waitUntilFree (VInt 44203) (VInt 500) (VInt 4000)).
Proof.
  exact (proj1 (interval_waitUntilFree_resolves_when_freed
                  (VInt 44203) (VInt 500) (VInt 4000) 3 eq_refl)).
Defined.

Lemma interval_waitUntilFree_times_out_witness :
  ∃ s,
    Interval.f_run (Interval.f_rounds 1 2
                      ++ [Interval.f_timer_fires 0; Interval.f_timer_fires 1])
      (Interval.waitUntilFree (VInt 44203) (VInt 500) (VInt 4000)) = Some s
    ∧ Interval.f_deferred s
      = [Reject (new_Error "waitUntilFree: timeout after 4000 ms.")].
Proof.
  destruct (interval_waitUntilFree_times_out (VInt 44203) (VInt 500) (VInt 4000) 2)
    as (s & Hrun & Hd & _); [reflexivity|].
  exists s. split; [exact Hrun | exact Hd].
Defined.

Lemma interval_waitUntilUsed_resolves_when_used_witness :
  ∃ s,
    Interval.u_run (Interval.u_rounds 1 0 2
                      ++ [Interval.u_timer_fires 1;
                          Interval.u_network 2 Net.connect_ev])
      (Interval.waitUntilUsed (VInt 44204) (VInt 500) (VInt 4000)) = Some s
    ∧ Interval.u_deferred s = [Resolve ()].
Proof.
  destruct (interval_waitUntilUsed_resolves_when_used
              (VInt 44204) (VInt 500) (VInt 4000) 2)
    as (_ & s & _ & _ & _ & _ & Hrun & Hd & _); [reflexivity|].
  exists s. split; [exact Hrun | exact Hd].
Defined.

Lemma interval_waitUntilUsed_times_out_witness :
  ∃ s,
    Interval.u_run (Interval.u_rounds 1 0 2
                      ++ [Interval.u_timer_fires 0; Interval.u_timer_fires 1])
      (Interval.waitUntilUsed (VInt 44205) (VInt 500) (VInt 2000)) = Some s
    ∧ Interval.u_deferred s = [Reject (new_Error "waitUntilListening: timeout.")].
Proof.
  destruct (interval_waitUntilUsed_times_out (VInt 44205) (VInt 500) (VInt 2000) 2)
    as (s & Hrun & Hd & _); [reflexivity|].
  exists s. split; [exact Hrun | exact Hd].
Defined.


(** ** Refused ports *)

Section RefusedPorts.
Variable host_syntax : string → bool.

(** X14. A wait function called with a port [is.port] refuses
    rejects at once with an error that names the port, and holds
    nothing afterwards: no timer is armed, no socket or server
    exists, so no event can ever reach the session.  The current
    module reports ["invalid port: ..."] from all four functions;
    the predecessor prefixes the message with the name of the
    function, [waitUntilListening] for [waitUntilUsed]. *)
Theorem refused_port_wait_holds_nothing (port r t : val) :
  Is2.port port = false →
  (∀ c, HostAware.call_port c = port →
     ∃ s, HostAware.invoke host_syntax c = Normal s
          ∧ HostAware.s_deferred s
            = [Reject (new_Error ("invalid port: " +:+ inspect port))]
          ∧ ∀ ev, HostAware.step host_syntax ev s = None)
  ∧ (Interval.f_deferred (Interval.waitUntilFree port r t)
     = [Reject (new_Error ("waitUntilFree: invalid port: " +:+ inspect port))]
     ∧ ∀ ev, Interval.f_step ev (Interval.waitUntilFree port r t) = None)
  ∧ (Interval.u_deferred (Interval.waitUntilUsed port r t)
     = [Reject (new_Error ("waitUntilListening: invalid port: " +:+ inspect port))]
     ∧ ∀ ev, Interval.u_step ev (Interval.waitUntilUsed port r t) = None).
Proof.
  intros Hp. split; [|split].
  - intros c <-.
    destruct (inv_invoke host_syntax c) as (s & Hs & _).
    exists s. split; [done|].
    assert (HostAware.s_port s = HostAware.call_port c) as Hport.
    { destruct c; cbn [HostAware.invoke HostAware.call_port] in *;
        unfold HostAware.waitUntilFree, HostAware.waitUntilUsed in Hs;
        first [ rewrite waitUntilFreeOnHost_invalid in Hs by done
              | rewrite waitUntilUsedOnHost_invalid in Hs by done ];
        by injection Hs as <-. }
    rewrite <- Hport in Hp.
    destruct (invoke_invalid host_syntax c s Hs Hp) as (Hd & Hts & Hcs).
    rewrite Hd, Hport. split; [done|].
    intros [h|i ev|i]; unfold HostAware.step; rewrite ?Hts, ?Hcs; done.
  - unfold Interval.waitUntilFree. rewrite Hp. cbn [negb].
    split; [done|]. by intros [h|ev].
  - unfold Interval.waitUntilUsed. rewrite Hp. cbn [negb].
    split; [done|]. by intros [h|i ev].
Qed.

End RefusedPorts.

Lemma refused_port_wait_holds_nothing_witness :
  Interval.f_deferred (Interval.waitUntilFree (VInt 70000) VUndefined VUndefined)
  = [Reject (new_Error "waitUntilFree: invalid port: 70000")].
Proof.
  exact (proj1 (proj1 (proj2 (refused_port_wait_holds_nothing (λ _, true)
                                (VInt 70000) VUndefined VUndefined eq_refl)))).
Defined.
